(** * ZenReader: the paged reading surface

    A shallow embedding of the reading surface of ZenReader:

    - [src/components/reader/PagedReader.tsx]: page computation
      ([calculatePages]), navigation ([goToNextPage], [goToPrevPage]) and
      the highlight/search matcher ([HighlightText]);
    - [src/components/reader/ReadingFooter.tsx]: the reading-time estimate;
    - [src/store/useBookStore.ts]: [saveReadingProgress].

    Callbacks handed to a component ([onPageChange], [onTotalPagesChange],
    [onNextChapter], [onPrevChapter]) are modelled by the list of calls a
    function makes, in program order; an optional callback is a flag that
    says whether the parent supplied it. *)

From Stdlib Require Import ZArith QArith Qround Qreduction Qabs.
From Stdlib Require Import List Ascii String Lia DecimalString.
From stdpp Require Import gmap strings.

Local Open Scope Z_scope.

(** ** JavaScript numbers

    A [number] is a rational, an infinity or NaN.  Finite arithmetic is
    exact (IEEE rounding and overflow are not modelled, and there is no
    negative zero); the results of the operations on infinities, on NaN
    and of a division by zero are those of ECMAScript.  Finite values are
    kept in lowest terms, so that equality of finite numbers is equality of
    their values. *)
Module JS.

Inductive number : Type :=
| Fin (q : Q)
| PosInf
| NegInf
| NaN.

(** The numbers [Math.ceil], [Math.floor] and [%] on such numbers return:
    an integer, an infinity or NaN.  Only these are ever printed. *)
Inductive integer : Type :=
| Int (z : Z)
| IPosInf
| INegInf
| INaN.

Definition of_Z (z : Z) : number := Fin (inject_Z z).

Definition num (i : integer) : number :=
  match i with
  | Int z => of_Z z
  | IPosInf => PosInf
  | INegInf => NegInf
  | INaN => NaN
  end.

(** Ordering; [None] when an operand is NaN (every comparison is then
    false). *)
Definition compare (a b : number) : option comparison :=
  match a, b with
  | NaN, _ => None
  | _, NaN => None
  | Fin x, Fin y => Some (x ?= y)%Q
  | PosInf, PosInf => Some Eq
  | NegInf, NegInf => Some Eq
  | PosInf, _ => Some Gt
  | _, NegInf => Some Gt
  | NegInf, _ => Some Lt
  | _, PosInf => Some Lt
  end.

(** [a < b], [a <= b], [a > b], [a >= b], [a === b], [a !== b] *)
Definition lt (a b : number) : bool :=
  match compare a b with Some Lt => true | _ => false end.
Definition le (a b : number) : bool :=
  match compare a b with Some Lt | Some Eq => true | _ => false end.
Definition gt (a b : number) : bool :=
  match compare a b with Some Gt => true | _ => false end.
Definition ge (a b : number) : bool :=
  match compare a b with Some Gt | Some Eq => true | _ => false end.
Definition strict_eq (a b : number) : bool :=
  match compare a b with Some Eq => true | _ => false end.
Definition strict_neq (a b : number) : bool := negb (strict_eq a b).

Definition neg (a : number) : number :=
  match a with
  | Fin x => Fin (Qred (- x))
  | PosInf => NegInf
  | NegInf => PosInf
  | NaN => NaN
  end.

(** [a + b] *)
Definition add (a b : number) : number :=
  match a, b with
  | NaN, _ => NaN
  | _, NaN => NaN
  | Fin x, Fin y => Fin (Qred (x + y))
  | PosInf, NegInf => NaN
  | NegInf, PosInf => NaN
  | PosInf, _ => PosInf
  | _, PosInf => PosInf
  | NegInf, _ => NegInf
  | _, NegInf => NegInf
  end.

(** [a - b] *)
Definition sub (a b : number) : number := add a (neg b).

(** The sign of a finite value selects the infinity a product or a
    quotient overflows to; a zero gives NaN. *)
Definition signed (x : Q) (positive negative : number) : number :=
  match (x ?= 0)%Q with
  | Gt => positive
  | Lt => negative
  | Eq => NaN
  end.

(** [a * b] *)
Definition mul (a b : number) : number :=
  match a, b with
  | NaN, _ => NaN
  | _, NaN => NaN
  | Fin x, Fin y => Fin (Qred (x * y))
  | Fin x, PosInf => signed x PosInf NegInf
  | Fin x, NegInf => signed x NegInf PosInf
  | PosInf, Fin y => signed y PosInf NegInf
  | NegInf, Fin y => signed y NegInf PosInf
  | PosInf, PosInf => PosInf
  | NegInf, NegInf => PosInf
  | PosInf, NegInf => NegInf
  | NegInf, PosInf => NegInf
  end.

(** [a / b]: a finite value over zero is an infinity of its sign, [0 / 0]
    is NaN, a finite value over an infinity is zero. *)
Definition div (a b : number) : number :=
  match a, b with
  | NaN, _ => NaN
  | _, NaN => NaN
  | Fin x, Fin y =>
      if Qeq_bool y 0 then signed x PosInf NegInf else Fin (Qred (x / y))
  | Fin _, _ => Fin 0
  | PosInf, Fin y => if Qle_bool 0 y then PosInf else NegInf
  | NegInf, Fin y => if Qle_bool 0 y then NegInf else PosInf
  | _, _ => NaN
  end.

(** [Math.max(a, b)] *)
Definition Math_max (a b : number) : number :=
  match compare a b with
  | None => NaN
  | Some Lt => b
  | Some _ => a
  end.

(** [Math.ceil(a)], [Math.floor(a)] *)
Definition Math_ceil (a : number) : integer :=
  match a with
  | Fin x => Int (Qceiling x)
  | PosInf => IPosInf
  | NegInf => INegInf
  | NaN => INaN
  end.

Definition Math_floor (a : number) : integer :=
  match a with
  | Fin x => Int (Qfloor x)
  | PosInf => IPosInf
  | NegInf => INegInf
  | NaN => INaN
  end.

(** [a % b] on integers: the remainder has the sign of the dividend. *)
Definition rem (a b : integer) : integer :=
  match a, b with
  | Int x, Int y => if (y =? 0)%Z then INaN else Int (Z.rem x y)
  | Int x, (IPosInf | INegInf) => Int x
  | _, _ => INaN
  end.

(** What a template literal prints for an integer-valued number. *)
Definition toString (a : integer) : string :=
  match a with
  | Int z => NilEmpty.string_of_int (Z.to_int z)
  | IPosInf => "Infinity"
  | INegInf => "-Infinity"
  | INaN => "NaN"
  end.

End JS.

(** ** PagedReader: page computation and navigation *)
Module PagedReader.
Import JS.

(** [layoutDims], as the resize observer stores it. *)
Record LayoutDims : Type := { width : number; height : number }.

(** The props the page computation and the navigation read. *)
Record Props : Type := {
  currentPageIndex : number;
  onTotalPagesChange : bool;
  onNextChapter : bool;
  onPrevChapter : bool
}.

(** A call of one of the parent's callbacks. *)
Inductive notification : Type :=
| PageChange (pageIndex : number)
| TotalPagesChange (totalPages : number)
| NextChapter
| PrevChapter.

(** [Math.max(1, Math.ceil(scrollWidth / layoutDims.width))];
    [scrollWidth] is an integer of the DOM. *)
Definition pageCount (layoutDims : LayoutDims) (scrollWidth : Z) : number :=
  Math_max (of_Z 1) (num (Math_ceil (div (of_Z scrollWidth) (width layoutDims)))).

(** One pass of [calculatePages].  [contentRef] is [None] when
    [contentRef.current] is null, and otherwise holds the [scrollWidth]
    measured by this pass; [totalPages] is the component's state.  The pass
    returns the new state and the callbacks it called.  (The updater given to
    [setTotalPages] is recorded where the program text has it.) *)
Definition calculatePages (props : Props) (layoutDims : LayoutDims)
    (contentRef : option Z) (totalPages : number) : number * list notification :=
  match contentRef with
  | None => (totalPages, [])
  | Some scrollWidth =>
      let pages := pageCount layoutDims scrollWidth in
      let '(totalPages', changed) :=
        if strict_neq totalPages pages
        then (pages, if onTotalPagesChange props then [TotalPagesChange pages] else [])
        else (totalPages, []) in
      let repair :=
        if ge (currentPageIndex props) pages
        then [PageChange (sub pages (of_Z 1))]
        else [] in
      (totalPages', changed ++ repair)
  end.

(** The passes of one run of the effect, in the order they fire.  All of
    them are the closure [calculatePages] of the render that ran the effect
    ([currentPageIndex] is not in the dependency array), so all of them read
    the same [props] and [layoutDims]. *)
Fixpoint runPasses (props : Props) (layoutDims : LayoutDims)
    (passes : list (option Z)) (totalPages : number) : number * list notification :=
  match passes with
  | [] => (totalPages, [])
  | contentRef :: later =>
      let '(totalPages', calls) := calculatePages props layoutDims contentRef totalPages in
      let '(totalPages'', calls') := runPasses props layoutDims later totalPages' in
      (totalPages'', calls ++ calls')
  end.

(** The page-computation effect.  [passes] gives [contentRef.current] at the
    start of the effect (the immediate pass) and at every later pass that
    fires before the cleanup: the pass after the pending images have loaded,
    the 100 ms timer and the 500 ms timer.  The effect returns at once when
    [layoutDims] is null or the content is not mounted. *)
Definition pagesEffect (props : Props) (layoutDims : option LayoutDims)
    (passes : list (option Z)) (totalPages : number) : number * list notification :=
  match layoutDims, passes with
  | Some dims, Some _ :: _ => runPasses props dims passes totalPages
  | _, _ => (totalPages, [])
  end.


Definition goToPrevPage (props : Props) : list notification :=
  if gt (currentPageIndex props) (of_Z 0)
  then [PageChange (sub (currentPageIndex props) (of_Z 1))]
  else if onPrevChapter props then [PrevChapter] else [].

Definition goToNextPage (props : Props) (totalPages : number) : list notification :=
  if lt (currentPageIndex props) (sub totalPages (of_Z 1))
  then [PageChange (add (currentPageIndex props) (of_Z 1))]
  else if onNextChapter props then [NextChapter] else [].

End PagedReader.

(** ** ReadingFooter: the reading-time estimate *)
Module ReadingFooter.
Import JS.

Definition AVERAGE_WPM : number := of_Z 238.

(** [formatTime] is only applied to [remainingMinutes], a result of
    [Math.ceil]. *)
Definition formatTime (minutes : integer) : string :=
  if le (num minutes) (of_Z 0) then "Almost done"
  else if lt (num minutes) (of_Z 60)
  then "~" +:+ toString minutes +:+ " min left"
  else
    let hours := Math_floor (div (num minutes) (of_Z 60)) in
    let mins := rem minutes (Int 60) in
    if strict_eq (num mins) (of_Z 0)
    then "~" +:+ toString hours +:+ "h left"
    else "~" +:+ toString hours +:+ "h " +:+ toString mins +:+ "m left".

Definition remainingMinutes (currentPage totalPages totalWords : number) : integer :=
  let wordsPerPage := div totalWords totalPages in
  let remainingPages := sub totalPages currentPage in
  let remainingWords := mul remainingPages wordsPerPage in
  Math_ceil (div remainingWords AVERAGE_WPM).

(** The text of the footer's time span. *)
Definition timeLeft (currentPage totalPages totalWords : number) : string :=
  formatTime (remainingMinutes currentPage totalPages totalWords).

End ReadingFooter.

(** ** The data of a book

    [types.ts] is not among the sources; the fields of a highlight, of a
    chapter and of the reading progress are those the object literals and
    the property reads of [Reader.tsx] and [useBookStore.ts] name.  A text
    is the list of its code units, taken in 0..255 (ISO-8859-1). *)
Module Highlight.
Record t : Type := {
  id : string;
  chapterId : string;
  text : list ascii;
  note : string;
  color : string;
  created : JS.number
}.
End Highlight.

Module Chapter.
Record t : Type := {
  id : string;
  title : string;
  order : JS.number;
  content : list ascii
}.
End Chapter.

Module ReadingProgress.
Record t : Type := {
  chapterId : string;
  pageIndex : JS.number;
  lastRead : JS.number
}.
End ReadingProgress.

(** A book is a JavaScript object: a finite map from property names to
    values.  Which properties [Book] declares is not needed: the store only
    spreads the object and sets one property. *)
Inductive value : Type :=
| VString (s : string)
| VNumber (n : JS.number)
| VChapters (chapters : list Chapter.t)
| VHighlights (highlights : list Highlight.t)
| VProgress (progress : ReadingProgress.t).

Abbreviation Book := (gmap string value).

(** ** useBookStore: saving the reading progress *)
Module BookStore.

Record BookState : Type := {
  book : option Book;
  currentChapterId : string;
  currentPageIndex : JS.number
}.

(** [set({ book: b })]: the partial state is merged into the current one. *)
Definition set_book (b : Book) (st : BookState) : BookState :=
  {| book := Some b;
     currentChapterId := currentChapterId st;
     currentPageIndex := currentPageIndex st |}.

(** [setCurrentPageIndex], the handler behind [onPageChange]. *)
Definition setCurrentPageIndex (pageIndex : JS.number) (st : BookState) : BookState :=
  {| book := book st;
     currentChapterId := currentChapterId st;
     currentPageIndex := pageIndex |}.

(** How the promise of [saveReadingProgress] settles. *)
Inductive settled : Type := Resolved | Rejected.

Section Persistence.

(** The persistence collaborator [saveBook] of [services/db]: it takes the
    database from one state to the next, or rejects. *)
Variable db : Type.
Variable saveBook : Book -> db -> option db.

(** [saveReadingProgress].  [now] is what [Date.now()] returns; [st] is the
    state [get()] reads; [resumed] is the state of the store when
    [await saveBook(updatedBook)] resumes, into which [set] merges the book.
    The result is the store, the database and how the promise settled,
    together with the book handed to [saveBook], if any. *)
Definition saveReadingProgress (now : JS.number) (st : BookState) (d : db)
    (resumed : BookState) : BookState * db * settled * option Book :=
  match book st with
  | None => (st, d, Resolved, None)
  | Some b =>
      let progress :=
        {| ReadingProgress.chapterId := currentChapterId st;
           ReadingProgress.pageIndex := currentPageIndex st;
           ReadingProgress.lastRead := now |} in
      let updatedBook := <["readingProgress" := VProgress progress]> b in
      match saveBook updatedBook d with
      | Some d' => (set_book updatedBook resumed, d', Resolved, Some updatedBook)
      | None => (resumed, d, Rejected, Some updatedBook)
      end
  end.

End Persistence.

End BookStore.

(** ** HighlightText: the highlight/search matcher of PagedReader *)
Module Matcher.

Local Open Scope nat_scope.

(** The code units [\s] matches and [trim] strips: TAB, LF, VT, FF, CR,
    SPACE and NBSP. *)
Definition is_space (c : ascii) : bool :=
  let n := nat_of_ascii c in
  ((9 <=? n) && (n <=? 13)) || (n =? 32) || (n =? 160).

(** Canonicalize of an ignore-case regular expression: the upper-case code
    unit.  The upper case of 181, 223 and 255 is no code unit of 0..255, so
    each of them only equals itself. *)
Definition canonicalize (c : ascii) : ascii :=
  let n := nat_of_ascii c in
  if ((97 <=? n) && (n <=? 122)) || ((224 <=? n) && (n <=? 254) && negb (n =? 247))
  then ascii_of_nat (n - 32)
  else c.

Definition same_char (x c : ascii) : bool :=
  Ascii.eqb (canonicalize x) (canonicalize c).

(** [s.trim()] *)
Fixpoint trimStart (s : list ascii) : list ascii :=
  match s with
  | c :: s' => if is_space c then trimStart s' else s
  | [] => []
  end.

Fixpoint trimEnd (s : list ascii) : list ascii :=
  match s with
  | c :: s' =>
      match trimEnd s' with
      | [] => if is_space c then [] else [c]
      | kept => c :: kept
      end
  | [] => []
  end.

Definition trim (s : list ascii) : list ascii := trimEnd (trimStart s).

(** [!s.trim()]: the empty string is falsy. *)
Definition blank (s : list ascii) : bool :=
  match trim s with [] => true | _ => false end.

(** [s.replace(/\s+/g, ' ')]; [inRun] says that the previous code unit was
    part of the run of white space being replaced. *)
Fixpoint replaceSpaces (inRun : bool) (s : list ascii) : list ascii :=
  match s with
  | c :: s' =>
      if is_space c
      then if inRun then replaceSpaces true s' else " "%char :: replaceSpaces true s'
      else c :: replaceSpaces false s'
  | [] => []
  end.

(** [s.split(' ')] *)
Fixpoint split (s : list ascii) : list (list ascii) :=
  match s with
  | c :: s' =>
      if Ascii.eqb c " "%char then [] :: split s'
      else match split s' with
           | w :: ws => (c :: w) :: ws
           | [] => [[c]]
           end
  | [] => [[]]
  end.

(** [s.slice(from, to)] and [s.slice(from)], for indices that are not
    negative. *)
Definition slice (from to : nat) (s : list ascii) : list ascii :=
  firstn (to - from) (skipn from s).

(** The regular expressions the matcher builds.  Every character of a word
    is escaped by [replace(/[.*+?^${}()|[\]\\]/g, '\\$&')], so the pattern
    compiled from it matches the word's characters literally; the words of
    an annotation are joined by [[\s\n]+]. *)
Inductive atom : Type :=
| Lit (c : ascii)
| Spaces.

Definition escape (w : list ascii) : list atom := map Lit w.

(** [parts.join(sep)] on pattern sources. *)
Fixpoint join (sep : list atom) (parts : list (list atom)) : list atom :=
  match parts with
  | [] => []
  | [p] => p
  | p :: rest => p ++ sep ++ join sep rest
  end.

(** The length of the match of [re] at the head of [s], flags [gi]: a
    literal matches a code unit with the same canonical form; [[\s\n]+] is
    greedy and gives back one code unit at a time. *)
Fixpoint matchHere (re : list atom) : list ascii -> option nat :=
  match re with
  | [] => fun _ => Some 0
  | Lit c :: re' =>
      fun s =>
        match s with
        | x :: s' => if same_char x c then option_map S (matchHere re' s') else None
        | [] => None
        end
  | Spaces :: re' =>
      fix run (s : list ascii) : option nat :=
        match s with
        | x :: s' =>
            if is_space x
            then match run s' with
                 | Some n => Some (S n)
                 | None => option_map S (matchHere re' s')
                 end
            else None
        | [] => None
        end
  end.

(** [while ((match = regex.exec(text)) !== null) ...]: the ranges
    [(match.index, match.index + match[0].length)] of the successive
    matches.  [s] is the text from [pos] on and [skip] code units of it
    lie before [regex.lastIndex].  An empty match leaves [lastIndex] where it
    is, and the loop then never ends: the result is [None]. *)
Fixpoint execAll (re : list atom) (s : list ascii) (pos skip : nat)
    : option (list (nat * nat)) :=
  match s with
  | [] =>
      match matchHere re [] with
      | Some _ => None
      | None => Some []
      end
  | _ :: s' =>
      match skip with
      | S skip' => execAll re s' (S pos) skip'
      | O =>
          match matchHere re s with
          | Some (S n) => option_map (cons (pos, pos + S n)) (execAll re s' (S pos) n)
          | Some O => None
          | None => execAll re s' (S pos) 0
          end
      end
  end.

(** [Match]; [data] is present exactly on the matches of type ['note'], so
    the tag carries it: the highlight and its 1-based index. *)
Inductive MatchType : Type :=
| search
| note (h : Highlight.t) (index : nat).

Record Match : Type := {
  start : nat;
  end_ : nat;
  type : MatchType;
  priority : nat
}.

(** The children [HighlightText] renders: a string, a [<mark>] with key
    [search-{start}], or a [<span>] with key [note-{h.id}-{start}] that also
    shows [[h.index]] in a [<sup>]. *)
Inductive element : Type :=
| Plain (s : list ascii)
| SearchMark (key : nat) (s : list ascii)
| NoteSpan (h : Highlight.t) (index : nat) (key : nat) (s : list ascii).

(** The part of the text an element shows. *)
Definition shown (e : element) : list ascii :=
  match e with
  | Plain s => s
  | SearchMark _ s => s
  | NoteSpan _ _ _ s => s
  end.

(** The records pushed for a match of the search term and for a match of
    the highlight [h] at position [index] of [chapterHighlights]; [r] is
    [(match.index, match.index + match[0].length)]. *)
Definition searchMatch (r : nat * nat) : Match :=
  {| start := fst r; end_ := snd r; type := search; priority := 1 |}.

Definition noteMatch (h : Highlight.t) (index : nat) (r : nat * nat) : Match :=
  {| start := fst r; end_ := snd r; type := note h (index + 1); priority := 2 |}.

Definition searchMatches (searchQuery text : list ascii) : option (list Match) :=
  if blank searchQuery then Some []
  else option_map (map searchMatch) (execAll (escape searchQuery) text 0 0).

(** The body of [chapterHighlights.forEach((h, index) => ...)]. *)
Definition noteMatches (text : list ascii) (index : nat) (h : Highlight.t)
    : option (list Match) :=
  if blank (Highlight.text h) then Some []
  else
    let clean := trim (replaceSpaces false (Highlight.text h)) in
    let escaped := map escape (split clean) in
    option_map (map (noteMatch h index)) (execAll (join [Spaces] escaped) text 0 0).

Fixpoint forEachHighlight (text : list ascii) (index : nat)
    (chapterHighlights : list Highlight.t) : option (list Match) :=
  match chapterHighlights with
  | [] => Some []
  | h :: rest =>
      match noteMatches text index h, forEachHighlight text (S index) rest with
      | Some found, Some later => Some (found ++ later)
      | _, _ => None
      end
  end.

(** [matches.sort((a, b) => a.start - b.start)]: the sort of an array is
    stable, and the stable sort of a list is unique; this is insertion from
    the right. *)
Fixpoint insert (m : Match) (sorted : list Match) : list Match :=
  match sorted with
  | [] => [m]
  | m' :: rest => if start m <=? start m' then m :: sorted else m' :: insert m rest
  end.

Fixpoint sort (matches : list Match) : list Match :=
  match matches with
  | [] => []
  | m :: rest => insert m (sort rest)
  end.

Definition render (text : list ascii) (m : Match) : element :=
  match type m with
  | search => SearchMark (start m) (slice (start m) (end_ m) text)
  | note h index => NoteSpan h index (start m) (slice (start m) (end_ m) text)
  end.

(** The [for (const match of matches)] loop: the elements pushed and the
    final [lastIndex]. *)
Fixpoint sweep (text : list ascii) (matches : list Match) (lastIndex : nat)
    : list element * nat :=
  match matches with
  | [] => ([], lastIndex)
  | m :: rest =>
      if start m <? lastIndex then sweep text rest lastIndex
      else
        let gap :=
          if lastIndex <? start m then [Plain (slice lastIndex (start m) text)] else [] in
        let '(elements, lastIndex') := sweep text rest (end_ m) in
        (gap ++ render text m :: elements, lastIndex')
  end.

(** [HighlightText]: the children of the fragment it returns; [None] when a
    matching loop does not end. *)
Definition HighlightText (searchQuery : list ascii)
    (chapterHighlights : list Highlight.t) (text : list ascii)
    : option (list element) :=
  if blank searchQuery && (length chapterHighlights =? 0) then Some [Plain text]
  else
    match searchMatches searchQuery text, forEachHighlight text 0 chapterHighlights with
    | Some found, Some notes =>
        let matches := sort (found ++ notes) in
        let '(elements, lastIndex) := sweep text matches 0 in
        Some (elements ++
              (if lastIndex <? length text then [Plain (skipn lastIndex text)] else []))
    | _, _ => None
    end.

End Matcher.


(** * The rest of the reading surface *)

(** ** PagedReader: the resize observer, the inputs, the buttons and the footer *)
Module PagedReaderUI.
Import JS PagedReader Matcher.

(** [Math.abs(a)] *)
Definition Math_abs (a : number) : number :=
  match a with
  | Fin x => Fin (Qred (Qabs x))
  | PosInf => PosInf
  | NegInf => PosInf
  | NaN => NaN
  end.

(** The updater the resize observer gives to [setLayoutDims] for an entry
    whose content rect is [width] by [height]. *)
Definition observeEntry (width height : number) (prev : option LayoutDims)
    : option LayoutDims :=
  match prev with
  | None => Some {| width := width; height := height |}
  | Some dims =>
      if gt (Math_abs (sub (PagedReader.width dims) width)) (of_Z 1)
         || gt (Math_abs (sub (PagedReader.height dims) height)) (of_Z 1)
      then Some {| width := width; height := height |}
      else prev
  end.

(** The callback of the resize observer: one updater per entry, applied in
    order. *)
Definition resizeObserved (entries : list (number * number))
    (layoutDims : option LayoutDims) : option LayoutDims :=
  fold_left (fun dims entry => observeEntry (fst entry) (snd entry) dims)
    entries layoutDims.

Definition SWIPE_THRESHOLD : number := of_Z 50.

(** [onDragEnd], for [info.offset.x] and [info.velocity.x]. *)
Definition onDragEnd (props : Props) (totalPages : number)
    (offset_x velocity_x : number) : list notification :=
  if lt offset_x (neg SWIPE_THRESHOLD) || lt velocity_x (neg (of_Z 500))
  then goToNextPage props totalPages
  else if gt offset_x SWIPE_THRESHOLD || gt velocity_x (of_Z 500)
  then goToPrevPage props
  else [].

(** [handleKeyDown]: whether [preventDefault] is called, and the calls
    made. *)
Definition handleKeyDown (props : Props) (totalPages : number) (key : string)
    : bool * list notification :=
  if String.eqb key "ArrowRight" || String.eqb key "PageDown"
  then (true, goToNextPage props totalPages)
  else if String.eqb key "ArrowLeft" || String.eqb key "PageUp"
  then (true, goToPrevPage props)
  else (false, []).

(** The [disabled] attribute of the previous-page and next-page buttons. *)
Definition prevDisabled (props : Props) : bool :=
  negb (gt (currentPageIndex props) (of_Z 0) || onPrevChapter props).

Definition nextDisabled (props : Props) (totalPages : number) : bool :=
  negb (lt (currentPageIndex props) (sub totalPages (of_Z 1)) || onNextChapter props).

(** A click on a button: a disabled button receives none. *)
Definition clickPrev (props : Props) : list notification :=
  if prevDisabled props then [] else goToPrevPage props.

Definition clickNext (props : Props) (totalPages : number) : list notification :=
  if nextDisabled props totalPages then [] else goToNextPage props totalPages.

(** [s.split(/\s+/)]: the pieces between the runs of white space; [inRun]
    says that the previous code unit was part of a run. *)
Fixpoint splitSpaces (inRun : bool) (s : list ascii) : list (list ascii) :=
  match s with
  | [] => [[]]
  | c :: s' =>
      if is_space c
      then if inRun then splitSpaces true s' else [] :: splitSpaces true s'
      else match splitSpaces false s' with
           | w :: ws => (c :: w) :: ws
           | [] => [[c]]
           end
  end.

(** The minutes of the footer inside the reader:
    [Math.ceil(content.split(/\s+/).length / 200)]. *)
Definition footerMinutes (content : list ascii) : integer :=
  Math_ceil (div (of_Z (Z.of_nat (length (splitSpaces false content)))) (of_Z 200)).

(** [usePageInfo]: the effect sets [total] and keeps [current].
    [container] is [None] when [pagedReaderRef.current] is null; otherwise
    it holds [clientWidth] and, when the container has a [.paged-content]
    element, that element's [scrollWidth]. *)
Record PageInfo : Type := { current : number; total : number }.

(** [useState({ current: 1, total: 1 })] *)
Definition initialPageInfo : PageInfo := {| current := of_Z 1; total := of_Z 1 |}.

Definition usePageInfo (container : option (Z * option Z)) (pageInfo : PageInfo)
    : PageInfo :=
  match container with
  | Some (containerWidth, Some scrollWidth) =>
      {| current := current pageInfo;
         total := Math_max (of_Z 1)
                    (num (Math_ceil (div (of_Z scrollWidth) (of_Z containerWidth)))) |}
  | _ => pageInfo
  end.

End PagedReaderUI.

(** ** useBookStore: the other actions *)
Module BookStoreActions.
Import BookStore.

(** [book.chapters], an array of chapters; [None] when the object has no
    such array (it is then no [Book], and reading [.length] throws). *)
Definition chaptersOf (b : Book) : option (list Chapter.t) :=
  match b !! "chapters" with
  | Some (VChapters chapters) => Some chapters
  | _ => None
  end.

(** [book.chapters.some(c => c.id === chapterId)] *)
Definition chapterExists (chapterId : string) (chapters : list Chapter.t) : bool :=
  existsb (fun c => String.eqb (Chapter.id c) chapterId) chapters.

(** [setBook]; [None] when the call throws.  A [readingProgress] that is
    absent or falsy, or whose chapter is gone, leaves the default: the first
    chapter, page 0. *)
Definition setBook (newBook : option Book) (st : BookState) : option BookState :=
  match newBook with
  | None =>
      Some {| book := None;
              currentChapterId := currentChapterId st;
              currentPageIndex := currentPageIndex st |}
  | Some b =>
      match chaptersOf b with
      | None => None
      | Some [] => Some (set_book b st)
      | Some (first :: rest) =>
          let default :=
            {| book := Some b;
               currentChapterId := Chapter.id first;
               currentPageIndex := JS.of_Z 0 |} in
          match b !! "readingProgress" with
          | Some (VProgress progress) =>
              if chapterExists (ReadingProgress.chapterId progress) (first :: rest)
              then Some {| book := Some b;
                           currentChapterId := ReadingProgress.chapterId progress;
                           currentPageIndex := ReadingProgress.pageIndex progress |}
              else Some default
          | _ => Some default
          end
      end
  end.

Definition setCurrentChapterId (chapterId : string) (st : BookState) : BookState :=
  {| book := book st; currentChapterId := chapterId; currentPageIndex := JS.of_Z 0 |}.

Definition clearBook (st : BookState) : BookState :=
  {| book := None; currentChapterId := ""; currentPageIndex := JS.of_Z 0 |}.

Section Persistence.

Variable db : Type.
Variable saveBook : Book -> db -> option db.

(** [updateBook]; [resumed] is the store when [await saveBook] resumes. *)
Definition updateBook (updatedBook : Book) (d : db) (resumed : BookState)
    : BookState * db * settled :=
  match saveBook updatedBook d with
  | Some d' => (set_book updatedBook resumed, d', Resolved)
  | None => (resumed, d, Rejected)
  end.

End Persistence.

End BookStoreActions.

(** ** Reader: chapters, words, selection and highlights *)
Module Reader.
Import JS Matcher PagedReader PagedReaderUI.

(** [[...book.chapters].sort((a, b) => a.order - b.order)]: insertion from
    the right, which is the stable sort when the orders can be compared (a
    NaN among them makes the order of the result implementation-defined). *)
Fixpoint insertChapter (c : Chapter.t) (sorted : list Chapter.t) : list Chapter.t :=
  match sorted with
  | [] => [c]
  | c' :: rest =>
      if gt (sub (Chapter.order c) (Chapter.order c')) (of_Z 0)
      then c' :: insertChapter c rest
      else c :: sorted
  end.

Fixpoint sortedChapters (chapters : list Chapter.t) : list Chapter.t :=
  match chapters with
  | [] => []
  | c :: rest => insertChapter c (sortedChapters rest)
  end.

(** [sortedChapters.find(c => c.id === currentChapterId)] *)
Fixpoint find (currentChapterId : string) (sorted : list Chapter.t)
    : option Chapter.t :=
  match sorted with
  | [] => None
  | c :: rest =>
      if String.eqb (Chapter.id c) currentChapterId then Some c
      else find currentChapterId rest
  end.

(** [sortedChapters.findIndex(c => c.id === currentChapterId)], from index
    [i] on; -1 when there is none. *)
Fixpoint findIndexFrom (i : Z) (currentChapterId : string) (sorted : list Chapter.t)
    : Z :=
  match sorted with
  | [] => -1
  | c :: rest =>
      if String.eqb (Chapter.id c) currentChapterId then i
      else findIndexFrom (i + 1) currentChapterId rest
  end.

Definition findIndex (currentChapterId : string) (sorted : list Chapter.t) : Z :=
  findIndexFrom 0 currentChapterId sorted.

Definition hasPrev (currentChapterIndex : Z) : bool := 0 <? currentChapterIndex.

Definition hasNext (currentChapterIndex : Z) (sorted : list Chapter.t) : bool :=
  (-1 <? currentChapterIndex) && (currentChapterIndex <? Z.of_nat (length sorted) - 1).

(** [sortedChapters[i]]: undefined out of range. *)
Definition chapterAt (sorted : list Chapter.t) (i : Z) : option Chapter.t :=
  if i <? 0 then None else nth_error sorted (Z.to_nat i).

(** What the chapter callback handed to [PagedReader] does: there is none,
    or it calls [onChapterSelect] with an id, or it throws on reading [.id]
    of undefined. *)
Inductive handoff : Type :=
| NoCollaborator
| ChapterSelect (id : string)
| Throws.

Definition selectAt (sorted : list Chapter.t) (i : Z) : handoff :=
  match chapterAt sorted i with
  | Some c => ChapterSelect (Chapter.id c)
  | None => Throws
  end.

Definition onNextChapter (chapters : list Chapter.t) (currentChapterId : string)
    : handoff :=
  let sorted := sortedChapters chapters in
  let currentChapterIndex := findIndex currentChapterId sorted in
  if hasNext currentChapterIndex sorted
  then selectAt sorted (currentChapterIndex + 1)
  else NoCollaborator.

Definition onPrevChapter (chapters : list Chapter.t) (currentChapterId : string)
    : handoff :=
  let sorted := sortedChapters chapters in
  let currentChapterIndex := findIndex currentChapterId sorted in
  if hasPrev currentChapterIndex
  then selectAt sorted (currentChapterIndex - 1)
  else NoCollaborator.

(** The props [Reader] gives to [PagedReader]; [None] when the chapter is
    not found and [Reader] renders "Chapter not found" instead. *)
Definition pagedReaderProps (chapters : list Chapter.t) (currentChapterId : string)
    (currentPageIndex : number) : option Props :=
  let sorted := sortedChapters chapters in
  let currentChapterIndex := findIndex currentChapterId sorted in
  match find currentChapterId sorted with
  | None => None
  | Some _ =>
      Some {| currentPageIndex := currentPageIndex;
              onTotalPagesChange := true;
              PagedReader.onNextChapter :=
                hasNext currentChapterIndex sorted;
              PagedReader.onPrevChapter := hasPrev currentChapterIndex |}
  end.

(** [currentChapter?.content.split(/\s+/).filter(w => w.length > 0).length || 0] *)
Definition wordCount (currentChapter : option Chapter.t) : nat :=
  match currentChapter with
  | Some c =>
      length (List.filter (fun w => (0 <? length w)%nat)
                (splitSpaces false (Chapter.content c)))
  | None => 0%nat
  end.


(** [window.getSelection()], as far as [handleSelection] reads it. *)
Record Selection : Type := {
  isCollapsed : bool;
  selected : list ascii;
  rectTop : number;
  rectLeft : number;
  rectWidth : number
}.

Record SelectedText : Type := {
  text : list ascii;
  top : number;
  left : number
}.

(** [handleSelection]: the new value of the state [selectedText]. *)
Definition handleSelection (selection : option Selection)
    (selectedText : option SelectedText) : option SelectedText :=
  match selection with
  | None => None
  | Some s =>
      if isCollapsed s then None
      else
        let text := trim (selected s) in
        if (0 <? length text)%nat
        then Some {| text := text;
                     top := rectTop s;
                     left := add (rectLeft s) (div (rectWidth s) (of_Z 2)) |}
        else selectedText
  end.

(** [book.highlights || []]; [None] when the property is present and is no
    array of highlights (the object is then no [Book]). *)
Definition highlightsOf (b : Book) : option (list Highlight.t) :=
  match b !! "highlights" with
  | None => Some []
  | Some (VHighlights highlights) => Some highlights
  | Some _ => None
  end.

(** [(book.highlights || []).filter(h => h.chapterId === currentChapterId)] *)
Definition chapterHighlights (b : Book) (currentChapterId : string)
    : option (list Highlight.t) :=
  option_map
    (List.filter (fun h => String.eqb (Highlight.chapterId h) currentChapterId))
    (highlightsOf b).

(** The state of [Reader] that adding a highlight writes. *)
Record Marking : Type := {
  selectedText : option SelectedText;
  activeHighlightId : option string
}.

Section Persistence.

Variable db : Type.
Variable saveBook : Book -> db -> option db.

(** [handleAddHighlight].  [uuid] is what [crypto.randomUUID()] returns and
    [now] what [Date.now()] returns; [onBookUpdate] says whether the parent
    gave the callback.  The result is the marking state, the database, how
    the promise settled and the books [onBookUpdate] was called with;
    [None] when the book is no [Book]. *)
Definition handleAddHighlight (uuid : string) (now : number) (b : Book)
    (currentChapterId : string) (onBookUpdate : bool) (marking : Marking) (d : db)
    : option (Marking * db * BookStore.settled * list Book) :=
  match selectedText marking with
  | None => Some (marking, d, BookStore.Resolved, [])
  | Some selection =>
      match highlightsOf b with
      | None => None
      | Some highlights =>
          let newHighlight :=
            {| Highlight.id := uuid;
               Highlight.chapterId := currentChapterId;
               Highlight.text := text selection;
               Highlight.note := "";
               Highlight.color := "yellow";
               Highlight.created := now |} in
          let updatedBook :=
            <["highlights" := VHighlights (highlights ++ [newHighlight])]> b in
          match saveBook updatedBook d with
          | None => Some (marking, d, BookStore.Rejected, [])
          | Some d' =>
              Some ({| selectedText := None; activeHighlightId := Some uuid |},
                    d', BookStore.Resolved,
                    if onBookUpdate then [updatedBook] else [])
          end
      end
  end.

End Persistence.

End Reader.

(** ** useBookStore: the selectors *)
Module Selectors.
Import BookStore BookStoreActions.

(** [useCurrentChapter]: [state.book?.chapters.find(c => c.id ===
    state.currentChapterId)], on the chapters as stored; the result is
    undefined without a book, and [None] when the call throws. *)
Definition useCurrentChapter (state : BookState) : option (option Chapter.t) :=
  match book state with
  | None => Some None
  | Some b =>
      match chaptersOf b with
      | Some chapters => Some (Reader.find (currentChapterId state) chapters)
      | None => None
      end
  end.

End Selectors.

(** ** The vocabulary of the properties of the rest *)
Module ReaderSpec.
Import JS.

(** The chapters are in ascending order of [order]. *)
Fixpoint inOrder (chapters : list Chapter.t) : Prop :=
  match chapters with
  | [] => True
  | c :: rest =>
      Forall (fun c' => le (Chapter.order c) (Chapter.order c') = true) rest
      /\ inOrder rest
  end.

(** A selection that is set holds a text that is trimmed and not blank. *)
Definition trimmed (selectedText : option Reader.SelectedText) : Prop :=
  match selectedText with
  | None => True
  | Some s =>
      Matcher.trim (Reader.text s) = Reader.text s
      /\ Matcher.blank (Reader.text s) = false
  end.

(** The tagged elements among the children of [HighlightText]. *)
Definition tagged (elements : list Matcher.element) : list Matcher.element :=
  List.filter
    (fun e => match e with Matcher.Plain _ => false | _ => true end) elements.

End ReaderSpec.

(** ** More sample inputs *)
Module MoreSamples.
Import JS.

Definition chapter (id : string) (order : Z) (content : string) : Chapter.t :=
  {| Chapter.id := id;
     Chapter.title := id;
     Chapter.order := of_Z order;
     Chapter.content := list_ascii_of_string content |}.

(** Three chapters, stored out of order. *)
Definition threeChapters : list Chapter.t :=
  [chapter "c3" 2 "the end"; chapter "c1" 0 "  once upon  a time "; chapter "c2" 1 ""].

Definition mark (id chapterId : string) (text : string) : Highlight.t :=
  {| Highlight.id := id;
     Highlight.chapterId := chapterId;
     Highlight.text := list_ascii_of_string text;
     Highlight.note := "";
     Highlight.color := "yellow";
     Highlight.created := of_Z 0 |}.

(** A book with these chapters and one highlight in chapter "c1". *)
Definition library : Book :=
  <["chapters" := VChapters threeChapters]>
    (<["highlights" := VHighlights [mark "h0" "c1" "upon"]]>
       (<["title" := VString "Tales"]> ∅)).

(** The store while page 5 of chapter "c2" of this book is read. *)
Definition reading : BookStore.BookState :=
  {| BookStore.book := Some library;
     BookStore.currentChapterId := "c2";
     BookStore.currentPageIndex := of_Z 4 |}.

(** [Reader] while the word "time" is selected. *)
Definition selecting : Reader.Marking :=
  {| Reader.selectedText :=
       Some {| Reader.text := list_ascii_of_string "time";
               Reader.top := of_Z 120;
               Reader.left := of_Z 64 |};
     Reader.activeHighlightId := None |}.

(** A database that keeps nothing and never fails. *)
Definition forget (b : Book) (d : unit) : option unit := Some d.

End MoreSamples.

(** * The vocabulary of the properties *)

(** ** Page computation *)
Module PaginationSpec.
Import JS PagedReader.


End PaginationSpec.

(** ** Reading progress *)
Module ProgressSpec.
Import BookStore.


End ProgressSpec.

(** ** The matcher *)
Module MatcherSpec.
Import Matcher.

Local Open Scope nat_scope.

(** A pattern that begins with a literal or with [[\s\n]+] matches at
    least one code unit, and nothing at the end of the text. *)
Definition consuming (re : list atom) : Prop :=
  match re with [] => False | _ :: _ => True end.

(** The ranges lie in [lo, hi), are not empty, and each begins at or after
    the end of the one before. *)
Fixpoint chained (lo hi : nat) (ranges : list (nat * nat)) : Prop :=
  match ranges with
  | [] => True
  | r :: later => lo <= fst r /\ fst r < snd r /\ snd r <= hi /\ chained (snd r) hi later
  end.

(** The words of a text: its maximal runs of code units that are not white
    space, in order. *)
Fixpoint tokens (s : list ascii) : list (list ascii) :=
  match s with
  | [] => []
  | c :: s' =>
      if is_space c then tokens s'
      else match s' with
           | [] => [[c]]
           | d :: _ =>
               if is_space d then [c] :: tokens s'
               else match tokens s' with
                    | w :: ws => (c :: w) :: ws
                    | [] => [[c]]
                    end
           end
  end.

(** A word: not empty, and without white space. *)
Definition word (w : list ascii) : Prop :=
  w <> [] /\ Forall (fun c => is_space c = false) w.

(** [u] is [w] up to the case of its letters. *)
Definition same_text (u w : list ascii) : Prop :=
  Forall2 (fun x c => same_char x c = true) u w.

(** A piece of text is an occurrence of the words [ws]: the words in order,
    up to case, with one or more code units of white space between each word
    and the next. *)
Inductive occurrence : list (list ascii) -> list ascii -> Prop :=
| occ_last (w u : list ascii) :
    same_text u w -> occurrence [w] u
| occ_more (w : list ascii) (ws : list (list ascii)) (u gap rest : list ascii) :
    same_text u w ->
    gap <> [] -> Forall (fun x => is_space x = true) gap ->
    ws <> [] -> occurrence ws rest ->
    occurrence (w :: ws) (u ++ gap ++ rest).

(** A match is a range of the text that is not empty. *)
Definition wf (text : list ascii) (m : Match) : Prop :=
  start m < end_ m /\ end_ m <= length text.

(** The start offset in the key of a tagged element. *)
Definition key_of (e : element) : option nat :=
  match e with
  | Plain _ => None
  | SearchMark key _ => Some key
  | NoteSpan _ _ key _ => Some key
  end.

(** The elements lie one after the other from offset [pos] on: a tagged
    element is not empty and lies at the offset its key names. *)
Fixpoint placed (pos : nat) (elements : list element) : Prop :=
  match elements with
  | [] => True
  | e :: rest =>
      match key_of e with
      | Some key => key = pos /\ shown e <> []
      | None => True
      end /\ placed (pos + length (shown e)) rest
  end.

(** [m] starts before the end of a match among the elements already
    pushed. *)
Definition covered (emitted : list element) (m : Match) : Prop :=
  exists (e : element) (key : nat),
    In e emitted /\ key_of e = Some key /\ start m < key + length (shown e).

(** The matches are in ascending order of start. *)
Fixpoint ascending (l : list Match) : Prop :=
  match l with
  | [] => True
  | m :: rest => Forall (fun m' => start m <= start m') rest /\ ascending rest
  end.

(** [a] occurs in the list, and [b] somewhere after it. *)
Fixpoint before (a b : Match) (l : list Match) : Prop :=
  match l with
  | [] => False
  | x :: l' => (x = a /\ In b l') \/ before a b l'
  end.

End MatcherSpec.

(** ** Sample inputs *)
Module Samples.

Module Pages.
Import JS PagedReader.

(** An index of 5 against 300 units of content in a viewport of 100: three
    pages, and three calls [onPageChange(2)]. *)
Definition staleProps : Props :=
  {| currentPageIndex := of_Z 5;
     onTotalPagesChange := true;
     onNextChapter := false;
     onPrevChapter := false |}.

Definition viewport100 : LayoutDims := {| width := of_Z 100; height := of_Z 600 |}.

(** What the resize observer reports for a container without extent. *)
Definition collapsed : LayoutDims := {| width := of_Z 0; height := of_Z 0 |}.

(** The last page of three and the first page, with no chapter to hand
    over to. *)
Definition lastPageNoNext : Props :=
  {| currentPageIndex := of_Z 2; onTotalPagesChange := true;
     onNextChapter := false; onPrevChapter := false |}.

Definition firstPageNoPrev : Props :=
  {| currentPageIndex := of_Z 0; onTotalPagesChange := true;
     onNextChapter := false; onPrevChapter := false |}.

End Pages.

Module Store.
Import BookStore.




End Store.

Module Texts.
Import Matcher.

Local Open Scope nat_scope.

(** A highlight with a given id and text. *)
Definition highlight (id : string) (text : string) : Highlight.t :=
  {| Highlight.id := id;
     Highlight.chapterId := "ch1";
     Highlight.text := list_ascii_of_string text;
     Highlight.note := "";
     Highlight.color := "yellow";
     Highlight.created := JS.of_Z 0 |}.

(** The annotation "quick  brown", with two spaces, and the text "quick",
    line feed, "brown". *)
Definition quickBrown : Highlight.t := highlight "h1" "quick  brown".

Definition wrapped : list ascii :=
  list_ascii_of_string "quick" ++ ascii_of_nat 10 :: list_ascii_of_string "brown".

(** The same inside a sentence, in another case. *)
Definition sentence : list ascii :=
  list_ascii_of_string "The Quick" ++ ascii_of_nat 10
    :: list_ascii_of_string "  BROWN fox".

Definition wrappedInSentence : list ascii :=
  list_ascii_of_string "Quick" ++ ascii_of_nat 10 :: list_ascii_of_string "  BROWN".

(** The text "a b c b", the search term "b", and the annotations "a b c"
    and "b". *)
Definition abcb : list ascii := list_ascii_of_string "a b c b".
Definition termB : list ascii := list_ascii_of_string "b".
Definition noteABC : Highlight.t := highlight "h1" "a b c".
Definition noteB : Highlight.t := highlight "h2" "b".

(** The matches found in it, sorted by start. *)
Definition merged : list Match :=
  [noteMatch noteABC 0 (0, 5);
   searchMatch (2, 3); noteMatch noteB 1 (2, 3);
   searchMatch (6, 7); noteMatch noteB 1 (6, 7)].

End Texts.

End Samples.

(** * Properties *)

(** ** Numbers *)
Module JSFacts.
Import JS.

Lemma compare_of_Z (a b : Z) : compare (of_Z a) (of_Z b) = Some (a ?= b)%Z.
Proof.
  unfold of_Z, compare, Qcompare, inject_Z. simpl.
  now rewrite !Z.mul_1_r.
Qed.

Lemma Qred_of_Z (q : Q) (z : Z) : (q == inject_Z z)%Q -> Qred q = inject_Z z.
Proof.
  intros H. rewrite <- (inject_Z_Qred z). now apply Qred_complete.
Qed.

Lemma sub_of_Z (a b : Z) : sub (of_Z a) (of_Z b) = of_Z (a - b).
Proof.
  unfold sub, neg, add, of_Z. f_equal. apply Qred_of_Z.
  rewrite Qred_correct. unfold Z.sub.
  rewrite inject_Z_plus, inject_Z_opp. reflexivity.
Qed.

Lemma add_of_Z (a b : Z) : add (of_Z a) (of_Z b) = of_Z (a + b).
Proof.
  unfold add, of_Z. f_equal. apply Qred_of_Z.
  now rewrite inject_Z_plus.
Qed.

Lemma lt_of_Z (a b : Z) : lt (of_Z a) (of_Z b) = (a <? b)%Z.
Proof. unfold lt. rewrite compare_of_Z. unfold Z.ltb. now destruct (a ?= b)%Z. Qed.

Lemma gt_of_Z (a b : Z) : gt (of_Z a) (of_Z b) = (b <? a)%Z.
Proof.
  unfold gt. rewrite compare_of_Z. rewrite Z.ltb_antisym. unfold Z.leb.
  now destruct (a ?= b)%Z.
Qed.

Lemma Math_max_of_Z (a b : Z) : Math_max (of_Z a) (of_Z b) = of_Z (Z.max a b).
Proof.
  unfold Math_max. rewrite compare_of_Z. unfold Z.max.
  now destruct (a ?= b)%Z.
Qed.

Lemma div_pos (x y : Q) : (0 < y)%Q -> div (Fin x) (Fin y) = Fin (Qred (x / y)).
Proof.
  intros Hy. unfold div.
  destruct (Qeq_bool y 0) eqn:E; [|reflexivity].
  apply Qeq_bool_iff in E. rewrite E in Hy. now apply Qlt_irrefl in Hy.
Qed.

End JSFacts.

(** ** Page computation *)
Module Pagination.
Import JS JSFacts PagedReader PaginationSpec Samples.Pages.

(** The page count for a positive width, in integers. *)
Lemma pageCount_pos (S : Z) (W h : Q) :
  (0 < W)%Q ->
  pageCount {| width := Fin W; height := Fin h |} S
  = of_Z (Z.max 1 (Qceiling (inject_Z S / W))).
Proof.
  intros HW. unfold pageCount, of_Z at 2. simpl width.
  rewrite (div_pos _ _ HW). simpl.
  rewrite (Qceiling_comp _ _ (Qred_correct _)).
  apply Math_max_of_Z.
Qed.

(** The page count is the least number [P >= 1] of viewport widths that
    cover the scroll width. *)
Lemma pageCount_least (S : Z) (W h : Q) :
  (0 < W)%Q ->
  exists P : Z,
    pageCount {| width := Fin W; height := Fin h |} S = of_Z P /\
    (1 <= P)%Z /\
    (inject_Z S <= inject_Z P * W)%Q /\
    forall P' : Z, (1 <= P')%Z -> (inject_Z S <= inject_Z P' * W)%Q -> (P <= P')%Z.
Proof.
  intros HW. exists (Z.max 1 (Qceiling (inject_Z S / W))).
  split; [now apply pageCount_pos|].
  split; [lia|].
  assert (Hdiv : forall P', (inject_Z S <= inject_Z P' * W)%Q <->
                            (inject_Z S / W <= inject_Z P')%Q).
  { intros P'. split; intros H.
    - apply Qle_shift_div_r; assumption.
    - apply (Qmult_le_r _ _ W) in H; [|assumption].
      setoid_replace (inject_Z S / W * W)%Q with (inject_Z S) using relation Qeq in H;
        [assumption|].
      field. intros E. rewrite E in HW. now apply Qlt_irrefl in HW. }
  split.
  - apply Hdiv. eapply Qle_trans; [apply Qle_ceiling|].
    rewrite <- Zle_Qle. lia.
  - intros P' H1 H2. apply Hdiv in H2.
    apply Qceiling_resp_le in H2. rewrite Qceiling_Z in H2. lia.
Qed.



(** *** Bounds repair *)








(** *** A viewport of width zero *)

(** C2 fails on the code.  [layoutDims] is only tested for null, so a
    measured width of zero reaches the division: the page count of an empty
    strip is NaN, that of a strip of 640 units is Infinity, the effect runs
    its passes and reports the NaN to [onTotalPagesChange] on each of them
    (NaN differs from every previous count, itself included). *)
Theorem zero_width_page_count :
  pageCount collapsed 0 = NaN /\
  pageCount collapsed 640 = PosInf /\
  pagesEffect staleProps (Some collapsed) [Some 0; Some 0; Some 0] (of_Z 1)
  = (NaN, [TotalPagesChange NaN; TotalPagesChange NaN; TotalPagesChange NaN]) /\
  pagesEffect staleProps (Some collapsed) [Some 640; Some 640; Some 640] (of_Z 1)
  = (PosInf, [TotalPagesChange PosInf]).
Proof. repeat split; reflexivity. Qed.

(** A negative width is not skipped either; the count is then 1. *)
Lemma negative_width_page_count (S : Z) (W h : Q) :
  (0 <= S)%Z -> (W < 0)%Q ->
  pageCount {| width := Fin W; height := Fin h |} S = of_Z 1.
Proof.
  intros HS HW. unfold pageCount. simpl width. unfold div, of_Z at 2.
  destruct (Qeq_bool W 0) eqn:E.
  { apply Qeq_bool_iff in E. rewrite E in HW. now apply Qlt_irrefl in HW. }
  simpl. rewrite (Qceiling_comp _ _ (Qred_correct _)).
  fold (of_Z 1) (of_Z (Qceiling (inject_Z S / W))).
  rewrite Math_max_of_Z. f_equal.
  assert (H : (inject_Z S / W <= inject_Z 0)%Q).
  { destruct W as [[|n|n] d]; try discriminate HW.
    unfold Qle, Qdiv, Qmult, Qinv. simpl. lia. }
  apply Qceiling_resp_le in H. rewrite Qceiling_Z in H. lia.
Qed.

(** *** Navigation *)

(** C6.  [goToNextPage] calls [onPageChange(currentPageIndex + 1)] when
    [currentPageIndex < totalPages - 1], else [onNextChapter] when the
    parent supplied it, and else calls nothing, so that the index stays as
    it is; [goToPrevPage] calls [onPageChange(currentPageIndex - 1)] when
    [currentPageIndex > 0], else [onPrevChapter] when supplied, else
    nothing. *)
Theorem navigation_intents (props : Props) (totalPages : number) :
  (lt (currentPageIndex props) (sub totalPages (of_Z 1)) = true ->
   goToNextPage props totalPages = [PageChange (add (currentPageIndex props) (of_Z 1))]) /\
  (lt (currentPageIndex props) (sub totalPages (of_Z 1)) = false ->
   onNextChapter props = true -> goToNextPage props totalPages = [NextChapter]) /\
  (lt (currentPageIndex props) (sub totalPages (of_Z 1)) = false ->
   onNextChapter props = false -> goToNextPage props totalPages = []) /\
  (gt (currentPageIndex props) (of_Z 0) = true ->
   goToPrevPage props = [PageChange (sub (currentPageIndex props) (of_Z 1))]) /\
  (gt (currentPageIndex props) (of_Z 0) = false ->
   onPrevChapter props = true -> goToPrevPage props = [PrevChapter]) /\
  (gt (currentPageIndex props) (of_Z 0) = false ->
   onPrevChapter props = false -> goToPrevPage props = []).
Proof.
  unfold goToNextPage, goToPrevPage.
  repeat split; intros H; rewrite H; try reflexivity; intros ->; reflexivity.
Qed.

(** The same on integer page indices and counts. *)
Lemma navigation_on_integers (i n : Z) (next prev : bool) :
  let props := {| currentPageIndex := of_Z i; onTotalPagesChange := true;
                  onNextChapter := next; onPrevChapter := prev |} in
  goToNextPage props (of_Z n)
  = (if (i <? n - 1)%Z then [PageChange (of_Z (i + 1))]
     else if next then [NextChapter] else [])
  /\ goToPrevPage props
     = (if (0 <? i)%Z then [PageChange (of_Z (i - 1))]
        else if prev then [PrevChapter] else []).
Proof.
  unfold goToNextPage, goToPrevPage.
  cbn [currentPageIndex onNextChapter onPrevChapter].
  now rewrite !sub_of_Z, add_of_Z, lt_of_Z, gt_of_Z.
Qed.

(** On the last page of three, with no next chapter, advancing calls
    nothing; on the first page, with no previous chapter, retreating calls
    nothing; from the first page of three, advancing goes to page 1. *)
Lemma navigation_intents_witness :
  (lt (currentPageIndex lastPageNoNext) (sub (of_Z 3) (of_Z 1)) = false /\
   onNextChapter lastPageNoNext = false /\
   goToNextPage lastPageNoNext (of_Z 3) = []) /\
  (gt (currentPageIndex firstPageNoPrev) (of_Z 0) = false /\
   onPrevChapter firstPageNoPrev = false /\
   goToPrevPage firstPageNoPrev = []) /\
  (lt (currentPageIndex firstPageNoPrev) (sub (of_Z 3) (of_Z 1)) = true /\
   goToNextPage firstPageNoPrev (of_Z 3) = [PageChange (of_Z 1)]).
Proof.
  pose proof (navigation_intents lastPageNoNext (of_Z 3)) as (_ & _ & Hnext & _).
  pose proof (navigation_intents firstPageNoPrev (of_Z 3)) as (Hadv & _ & _ & _ & _ & Hprev).
  split; [|split].
  - split; [reflexivity|]. split; [reflexivity|]. apply Hnext; reflexivity.
  - split; [reflexivity|]. split; [reflexivity|]. apply Hprev; reflexivity.
  - split; [reflexivity|]. apply Hadv; reflexivity.
Defined.

End Pagination.

(** ** The reading-time estimate *)
Module Estimate.
Import JS JSFacts ReadingFooter.



(** What the arithmetic does give without a guard: no words on a finite,
    non-zero number of pages is "Almost done". *)
Lemma estimate_without_words (currentPage totalPages : Q) :
  ~ (totalPages == 0)%Q ->
  timeLeft (Fin currentPage) (Fin totalPages) (of_Z 0) = "Almost done"%string.
Proof.
  intros Hp. unfold timeLeft.
  assert (E : remainingMinutes (Fin currentPage) (Fin totalPages) (of_Z 0) = Int 0).
  { unfold remainingMinutes, of_Z, div at 2.
    destruct (Qeq_bool totalPages 0) eqn:E0.
    { now apply Qeq_bool_iff in E0. }
    unfold sub, neg, add, mul, AVERAGE_WPM, of_Z, div. cbn [Qeq_bool Math_ceil].
    change (Qeq_bool (inject_Z 238) 0) with false. cbv iota.
    cbn [Math_ceil]. f_equal.
    transitivity (Qceiling 0); [|reflexivity]. apply Qceiling_comp.
    rewrite !Qred_correct. unfold Qdiv. rewrite Qmult_0_l, Qmult_0_r, Qmult_0_l.
    reflexivity. }
  rewrite E. reflexivity.
Qed.

End Estimate.

(** ** Saving the reading progress *)
Module Progress.
Import BookStore ProgressSpec Samples.Store.

Section Persistence.

Variable db : Type.
Variable saveBook : Book -> db -> option db.


(** Saving again overwrites: after two saves the book holds the second
    record only, as if the first save had not happened. *)
Lemma saveReadingProgress_overwrites (p1 p2 : ReadingProgress.t) (b : Book) :
  <["readingProgress" := VProgress p2]> (<["readingProgress" := VProgress p1]> b)
  = <["readingProgress" := VProgress p2]> b.
Proof. apply insert_insert_eq. Qed.

(** Without a book nothing is saved and nothing changes. *)
Lemma saveReadingProgress_no_book (now : JS.number) (st resumed : BookState) (d : db) :
  book st = None ->
  saveReadingProgress db saveBook now st d resumed = (st, d, Resolved, None).
Proof. intros H. unfold saveReadingProgress. now rewrite H. Qed.

End Persistence.


End Progress.

(** ** The matcher *)
Module MatcherFacts.
Import Matcher MatcherSpec Samples.Texts.

Local Open Scope nat_scope.

(** *** Matching at a position *)

(** How [[\s\n]+] unfolds on a text. *)
Lemma matchHere_Spaces_cons (re : list atom) (x : ascii) (s : list ascii) :
  matchHere (Spaces :: re) (x :: s)
  = if is_space x
    then match matchHere (Spaces :: re) s with
         | Some n => Some (S n)
         | None => option_map S (matchHere re s)
         end
    else None.
Proof. reflexivity. Qed.

Lemma matchHere_Spaces_nil (re : list atom) : matchHere (Spaces :: re) [] = None.
Proof. reflexivity. Qed.

(** A match lies within the text. *)
Lemma matchHere_le (re : list atom) (s : list ascii) (n : nat) :
  matchHere re s = Some n -> n <= length s.
Proof.
  revert s n. induction re as [|[c|] re IH]; intros s n.
  - simpl. intros [= <-]. lia.
  - destruct s as [|x s]; simpl; [discriminate|].
    destruct (same_char x c); [|discriminate].
    destruct (matchHere re s) as [k|] eqn:E; simpl; intros [= <-].
    apply IH in E. lia.
  - revert n. induction s as [|x s IHs]; intros n.
    + rewrite matchHere_Spaces_nil. discriminate.
    + rewrite matchHere_Spaces_cons.
      destruct (is_space x); [|discriminate].
      destruct (matchHere (Spaces :: re) s) as [k|] eqn:E.
      * intros [= <-]. specialize (IHs k eq_refl). simpl. lia.
      * destruct (matchHere re s) as [k|] eqn:E'; simpl; intros [= <-].
        apply IH in E'. lia.
Qed.

(** A pattern that is not empty matches no empty string. *)
Lemma matchHere_consuming (re : list atom) (s : list ascii) :
  consuming re -> matchHere re s <> Some 0.
Proof.
  destruct re as [|[c|] re]; [intros []| |]; intros _.
  - destruct s as [|x s]; simpl; [discriminate|].
    destruct (same_char x c); [|discriminate].
    destruct (matchHere re s); discriminate.
  - destruct s as [|x s]; [discriminate|].
    rewrite matchHere_Spaces_cons.
    destruct (is_space x); [|discriminate].
    destruct (matchHere (Spaces :: re) s); [discriminate|].
    destruct (matchHere re s); discriminate.
Qed.

Lemma matchHere_consuming_nil (re : list atom) :
  consuming re -> matchHere re [] = None.
Proof. destruct re as [|[c|] re]; [intros []| |]; reflexivity. Qed.

(** *** The matching loop *)

(** The ranges found lie in the text, one after the other. *)
Lemma execAll_chained (re : list atom) (s : list ascii) (pos skip : nat)
    (ranges : list (nat * nat)) :
  execAll re s pos skip = Some ranges ->
  chained (pos + skip) (pos + length s) ranges.
Proof.
  revert pos skip ranges.
  induction s as [|x s IH]; intros pos skip ranges; simpl.
  - destruct (matchHere re []); [discriminate|]. now intros [= <-].
  - destruct skip as [|skip].
    + destruct (matchHere re (x :: s)) as [[|n]|] eqn:E; [discriminate| |].
      * destruct (execAll re s (S pos) n) as [later|] eqn:E'; [|discriminate].
        simpl. intros [= <-]. apply IH in E'. apply matchHere_le in E.
        simpl in *. replace (pos + S n) with (S pos + n) by lia.
        replace (pos + S (length s)) with (S pos + length s) by lia.
        repeat split; try lia. exact E'.
      * intros H. apply IH in H.
        replace (pos + S (length s)) with (S pos + length s) by lia.
        destruct ranges as [|r later]; [exact I|].
        simpl in *. intuition lia.
    + intros H. apply IH in H.
      replace (pos + S skip) with (S pos + skip) by lia.
      replace (pos + S (length s)) with (S pos + length s) by lia.
      exact H.
Qed.

(** The loop ends for a pattern that cannot match the empty string. *)
Lemma execAll_total (re : list atom) (s : list ascii) (pos skip : nat) :
  consuming re -> exists ranges, execAll re s pos skip = Some ranges.
Proof.
  intros Hre. revert pos skip.
  induction s as [|x s IH]; intros pos skip; simpl.
  - rewrite (matchHere_consuming_nil re Hre). now exists [].
  - destruct skip as [|skip]; [|apply IH].
    destruct (matchHere re (x :: s)) as [[|n]|] eqn:E.
    + now apply matchHere_consuming in E.
    + destruct (IH (S pos) n) as [later ->]. simpl. eauto.
    + apply IH.
Qed.

(** *** White space and case *)

(** The canonical form of white space is white space, and only of it. *)
Lemma is_space_canonicalize (x : ascii) : is_space (canonicalize x) = is_space x.
Proof. destruct x as [[] [] [] [] [] [] [] []]; vm_compute; reflexivity. Qed.

(** Letters of the same canonical form are both white space or both not. *)
Lemma same_char_space (x c : ascii) :
  same_char x c = true -> is_space x = is_space c.
Proof.
  unfold same_char. intros H. apply Ascii.eqb_eq in H.
  rewrite <- (is_space_canonicalize x), <- (is_space_canonicalize c).
  now rewrite H.
Qed.

Lemma nonspace_not_blank (c : ascii) : is_space c = false -> Ascii.eqb c " " = false.
Proof.
  intros H. destruct (Ascii.eqb c " ") eqn:E; [|reflexivity].
  apply Ascii.eqb_eq in E. subst c. discriminate H.
Qed.

(** *** Normalising an annotation *)

(** The words of a text are words. *)
Lemma tokens_words (s : list ascii) : Forall word (tokens s).
Proof.
  induction s as [|c s IH]; simpl; [constructor|].
  destruct (is_space c) eqn:Ec; [exact IH|].
  destruct s as [|d s]; [repeat constructor; [discriminate|assumption]|].
  destruct (is_space d) eqn:Ed.
  - constructor; [|exact IH]. repeat constructor; [discriminate|assumption].
  - destruct (tokens (d :: s)) as [|w ws].
    + repeat constructor; [discriminate|assumption].
    + inversion IH as [|? ? [Hw Hall] Hws]; subst.
      constructor; [|exact Hws]. split; [discriminate|now constructor].
Qed.

Lemma tokens_nonspace_head (c : ascii) (s : list ascii) :
  is_space c = false -> tokens (c :: s) <> [].
Proof.
  intros Hc. simpl. rewrite Hc. destruct s as [|d s]; [discriminate|].
  destruct (is_space d); [discriminate|].
  destruct (tokens (d :: s)); discriminate.
Qed.

Lemma tokens_trimStart (s : list ascii) : tokens (trimStart s) = tokens s.
Proof.
  induction s as [|c s IH]; [reflexivity|].
  simpl. destruct (is_space c) eqn:Ec; [exact IH|].
  simpl. now rewrite Ec.
Qed.

Lemma trimStart_length (s : list ascii) : length (trimStart s) <= length s.
Proof.
  induction s as [|c s IH]; simpl; [lia|].
  destruct (is_space c); simpl; lia.
Qed.

Lemma trimStart_head (s : list ascii) (c : ascii) (s' : list ascii) :
  trimStart s = c :: s' -> is_space c = false.
Proof.
  induction s as [|x s IH]; simpl; [discriminate|].
  destruct (is_space x) eqn:Ex; [exact IH|]. now intros [= <- _].
Qed.

Lemma trimEnd_nonspace_head (c : ascii) (s : list ascii) :
  is_space c = false ->
  trimEnd (c :: s) = c :: trimEnd s.
Proof.
  intros Hc. simpl. destruct (trimEnd s); [now rewrite Hc|reflexivity].
Qed.

Lemma replaceSpaces_inRun (s : list ascii) :
  replaceSpaces true s = replaceSpaces false (trimStart s).
Proof.
  induction s as [|c s IH]; [reflexivity|].
  simpl. destruct (is_space c) eqn:Ec; [exact IH|]. simpl. now rewrite Ec.
Qed.

Lemma trimStart_replaceSpaces (inRun : bool) (s : list ascii) :
  trimStart (replaceSpaces inRun s) = replaceSpaces false (trimStart s).
Proof.
  revert inRun. induction s as [|c s IH]; intros inRun; [reflexivity|].
  simpl. destruct (is_space c) eqn:Ec.
  - destruct inRun; [apply IH|]. simpl. apply IH.
  - simpl. now rewrite Ec.
Qed.

Lemma tokens_cons_nonspace (c d : ascii) (s : list ascii) :
  is_space c = false ->
  tokens (c :: d :: s)
  = if is_space d then [c] :: tokens (d :: s)
    else match tokens (d :: s) with
         | w :: ws => (c :: w) :: ws
         | [] => [[c]]
         end.
Proof. intros Hc. cbn [tokens]. rewrite Hc. reflexivity. Qed.

Lemma tokens_cons_space (d : ascii) (s : list ascii) :
  is_space d = true -> tokens (d :: s) = tokens s.
Proof. intros Hd. cbn [tokens]. now rewrite Hd. Qed.

Lemma trimEnd_cons_nonempty (c x : ascii) (kept : list ascii) (s : list ascii) :
  trimEnd s = x :: kept -> trimEnd (c :: s) = c :: x :: kept.
Proof. intros H. cbn [trimEnd]. now rewrite H. Qed.

(** Trimmed and with single spaces, a text that begins with a letter splits
    at its spaces into its words. *)
Lemma split_trimEnd_tokens (n : nat) :
  forall (s : list ascii) (c : ascii),
    length s <= n -> is_space c = false ->
    split (trimEnd (c :: replaceSpaces false s)) = tokens (c :: s).
Proof.
  induction n as [|n IH]; intros s c Hlen Hc.
  - destruct s; [|simpl in Hlen; lia].
    simpl. rewrite Hc. simpl. now rewrite (nonspace_not_blank c Hc).
  - destruct s as [|d s].
    { simpl. rewrite Hc. simpl. now rewrite (nonspace_not_blank c Hc). }
    simpl in Hlen. rewrite (trimEnd_nonspace_head c _ Hc).
    cbn [split]. rewrite (nonspace_not_blank c Hc).
    rewrite (tokens_cons_nonspace c d s Hc).
    cbn [replaceSpaces]. destruct (is_space d) eqn:Ed.
    + rewrite (tokens_cons_space d s Ed).
      rewrite replaceSpaces_inRun.
      rewrite <- (tokens_trimStart s).
      pose proof (trimStart_length s) as Hl.
      destruct (trimStart s) as [|e s3] eqn:Es.
      * reflexivity.
      * pose proof (trimStart_head _ _ _ Es) as He.
        assert (Hk : trimEnd (" "%char :: replaceSpaces false (e :: s3))
                     = " "%char :: trimEnd (e :: replaceSpaces false s3)).
        { cbn [replaceSpaces]. rewrite He.
          rewrite (trimEnd_nonspace_head e _ He).
          apply trimEnd_cons_nonempty. apply (trimEnd_nonspace_head e _ He). }
        rewrite Hk. cbn [split]. change (Ascii.eqb " " " ") with true. cbv iota.
        rewrite (IH s3 e); [reflexivity| simpl in Hl; lia | assumption].
    + rewrite (IH s d); [reflexivity| lia | assumption].
Qed.

(** A text is blank exactly when it holds white space only. *)
Lemma blank_spaces (s : list ascii) :
  blank s = true <-> Forall (fun c => is_space c = true) s.
Proof.
  unfold blank, trim. induction s as [|c s IH]; simpl.
  - split; [constructor|reflexivity].
  - destruct (is_space c) eqn:Ec.
    + rewrite IH. split; [now constructor|now inversion 1].
    + rewrite <- Ec, (trimEnd_nonspace_head c s); [|now rewrite Ec in *].
      rewrite Ec. split; [discriminate|].
      inversion 1; congruence.
Qed.

(** The words [noteMatches] joins are the words of the annotation. *)
Lemma clean_words (s : list ascii) :
  blank s = false ->
  split (trim (replaceSpaces false s)) = tokens s /\ tokens s <> [].
Proof.
  intros Hb. unfold trim. rewrite trimStart_replaceSpaces, <- tokens_trimStart.
  destruct (trimStart s) as [|c s'] eqn:E.
  - unfold blank, trim in Hb. rewrite E in Hb. discriminate.
  - pose proof (trimStart_head _ _ _ E) as Hc. split.
    + cbn [replaceSpaces]. rewrite Hc. now apply (split_trimEnd_tokens (length s')).
    + now apply tokens_nonspace_head.
Qed.

(** *** The matches found *)

(** The records made of chained ranges are matches of the text. *)
Lemma chained_wf (text : list ascii) (make : nat * nat -> Match) (lo : nat)
    (ranges : list (nat * nat)) :
  (forall r, start (make r) = fst r /\ end_ (make r) = snd r) ->
  chained lo (length text) ranges -> Forall (wf text) (map make ranges).
Proof.
  intros Hmake. revert lo.
  induction ranges as [|r ranges IH]; intros lo; simpl; [constructor|].
  intros (_ & H1 & H2 & H3). constructor; [|now apply (IH (snd r))].
  unfold wf. destruct (Hmake r) as [-> ->]. lia.
Qed.

Lemma searchMatches_ranges (searchQuery text : list ascii) :
  exists ranges,
    searchMatches searchQuery text = Some (map searchMatch ranges) /\
    chained 0 (length text) ranges.
Proof.
  unfold searchMatches. destruct (blank searchQuery) eqn:Hb.
  - exists []. split; [reflexivity|exact I].
  - assert (Hre : consuming (escape searchQuery)).
    { destruct searchQuery; [discriminate Hb|exact I]. }
    destruct (execAll_total (escape searchQuery) text 0 0 Hre) as [ranges E].
    exists ranges. rewrite E. split; [reflexivity|].
    apply (execAll_chained _ _ 0 0 _ E).
Qed.

(** The pattern of an annotation that is not blank: its words, joined. *)
Lemma note_pattern (s : list ascii) :
  blank s = false ->
  join [Spaces] (map escape (split (trim (replaceSpaces false s))))
  = join [Spaces] (map escape (tokens s))
  /\ consuming (join [Spaces] (map escape (tokens s))).
Proof.
  intros Hb. destruct (clean_words s Hb) as [-> Hne]. split; [reflexivity|].
  pose proof (tokens_words s) as Hw.
  destruct (tokens s) as [|w ws]; [contradiction|].
  inversion Hw as [|? ? [Hw1 _] _]; subst.
  destruct w as [|c w]; [contradiction|].
  simpl. destruct (map escape ws); exact I.
Qed.

Lemma noteMatches_ranges (text : list ascii) (index : nat) (h : Highlight.t) :
  exists ranges,
    noteMatches text index h = Some (map (noteMatch h index) ranges) /\
    chained 0 (length text) ranges.
Proof.
  unfold noteMatches. destruct (blank (Highlight.text h)) eqn:Hb.
  - exists []. split; [reflexivity|exact I].
  - destruct (note_pattern _ Hb) as [-> Hre].
    destruct (execAll_total _ text 0 0 Hre) as [ranges E].
    exists ranges. rewrite E. split; [reflexivity|].
    apply (execAll_chained _ _ 0 0 _ E).
Qed.

Lemma forEachHighlight_wf (text : list ascii) (chapterHighlights : list Highlight.t)
    (index : nat) :
  exists notes,
    forEachHighlight text index chapterHighlights = Some notes /\
    Forall (wf text) notes.
Proof.
  revert index.
  induction chapterHighlights as [|h rest IH]; intros index; simpl.
  - exists []. split; [reflexivity|constructor].
  - destruct (noteMatches_ranges text index h) as (ranges & -> & Hch).
    destruct (IH (S index)) as (later & -> & Hlater).
    eexists. split; [reflexivity|].
    apply Forall_app. split; [|exact Hlater].
    apply (chained_wf text _ 0); [intros r; split; reflexivity|exact Hch].
Qed.

Lemma insert_Forall (P : Match -> Prop) (m : Match) (sorted : list Match) :
  P m -> Forall P sorted -> Forall P (insert m sorted).
Proof.
  intros Hm. induction 1 as [|m' rest Hm' Hrest IH]; simpl.
  - now repeat constructor.
  - destruct (start m <=? start m'); repeat constructor; assumption.
Qed.

Lemma sort_Forall (P : Match -> Prop) (matches : list Match) :
  Forall P matches -> Forall P (sort matches).
Proof.
  induction 1 as [|m rest Hm Hrest IH]; simpl; [constructor|].
  now apply insert_Forall.
Qed.

(** *** Slices *)

Lemma firstn_plus (n m : nat) (s : list ascii) :
  firstn (n + m) s = firstn n s ++ firstn m (skipn n s).
Proof.
  revert s. induction n as [|n IH]; intros s; [reflexivity|].
  destruct s as [|c s]; simpl; [now rewrite firstn_nil|]. now rewrite IH.
Qed.

Lemma skipn_plus (n m : nat) (s : list ascii) :
  skipn (n + m) s = skipn m (skipn n s).
Proof.
  revert s. induction n as [|n IH]; intros s; [reflexivity|].
  destruct s as [|c s]; simpl; [now rewrite skipn_nil|]. apply IH.
Qed.

Lemma slice_app (a b c : nat) (text : list ascii) :
  a <= b -> b <= c -> slice a b text ++ slice b c text = slice a c text.
Proof.
  intros Hab Hbc. unfold slice.
  replace (c - a) with ((b - a) + (c - b)) by lia.
  rewrite firstn_plus. f_equal.
  rewrite <- skipn_plus. now replace (a + (b - a)) with b by lia.
Qed.

Lemma slice_length (a b : nat) (text : list ascii) :
  a <= b -> b <= length text -> length (slice a b text) = b - a.
Proof.
  intros Hab Hb. unfold slice.
  rewrite length_firstn, length_skipn. lia.
Qed.

Lemma slice_empty (a : nat) (text : list ascii) : slice a a text = [].
Proof. unfold slice. now rewrite Nat.sub_diag. Qed.

Lemma slice_to_end (a : nat) (text : list ascii) :
  slice a (length text) text = skipn a text.
Proof.
  unfold slice. apply firstn_all2. rewrite length_skipn. lia.
Qed.

Lemma slice_from_start (text : list ascii) : slice 0 (length text) text = text.
Proof. rewrite slice_to_end. reflexivity. Qed.

Lemma shown_render (text : list ascii) (m : Match) :
  shown (render text m) = slice (start m) (end_ m) text.
Proof. unfold render. now destruct (type m). Qed.

(** *** The sweep *)

Lemma key_of_render (text : list ascii) (m : Match) :
  key_of (render text m) = Some (start m).
Proof. unfold render. now destruct (type m). Qed.

Lemma sweep_cons (text : list ascii) (m : Match) (rest : list Match) (lastIndex : nat) :
  sweep text (m :: rest) lastIndex
  = if start m <? lastIndex then sweep text rest lastIndex
    else ((if lastIndex <? start m
           then [Plain (slice lastIndex (start m) text)] else [])
          ++ render text m :: fst (sweep text rest (end_ m)),
          snd (sweep text rest (end_ m))).
Proof.
  simpl. destruct (start m <? lastIndex); [reflexivity|].
  now destruct (sweep text rest (end_ m)).
Qed.

(** The elements pushed by the sweep are the text from the first
    [lastIndex] to the last, piece by piece. *)
Lemma sweep_partition (text : list ascii) (matches : list Match) :
  Forall (wf text) matches ->
  forall lastIndex : nat,
    lastIndex <= length text ->
    lastIndex <= snd (sweep text matches lastIndex) <= length text /\
    concat (map shown (fst (sweep text matches lastIndex)))
    = slice lastIndex (snd (sweep text matches lastIndex)) text /\
    placed lastIndex (fst (sweep text matches lastIndex)).
Proof.
  induction 1 as [|m rest [Hm1 Hm2] Hrest IH]; intros lastIndex Hli.
  - simpl. rewrite slice_empty. repeat split; lia.
  - rewrite sweep_cons. destruct (start m <? lastIndex) eqn:Eskip; [now apply IH|].
    apply Nat.ltb_ge in Eskip.
    destruct (IH (end_ m) Hm2) as ((Hlo & Hhi) & Hcat & Hplaced).
    cbn [fst snd]. split; [lia|].
    assert (Hgap : concat
                     (map shown
                        (if lastIndex <? start m
                         then [Plain (slice lastIndex (start m) text)] else []))
                   = slice lastIndex (start m) text).
    { destruct (lastIndex <? start m) eqn:E; simpl; [now rewrite app_nil_r|].
      apply Nat.ltb_ge in E. replace (start m) with lastIndex by lia.
      now rewrite slice_empty. }
    split.
    + rewrite map_app, concat_app, Hgap. cbn [map concat].
      rewrite shown_render, Hcat.
      rewrite (slice_app (start m)), (slice_app lastIndex); lia || reflexivity.
    + assert (Hmatch : placed (start m) (render text m :: fst (sweep text rest (end_ m)))).
      { cbn [placed]. rewrite key_of_render, shown_render.
        rewrite slice_length by lia. split.
        - split; [reflexivity|]. intros E.
          apply (f_equal (@length ascii)) in E.
          rewrite slice_length in E by lia. simpl in E. lia.
        - now replace (start m + (end_ m - start m)) with (end_ m) by lia. }
      destruct (lastIndex <? start m) eqn:E; [|apply Nat.ltb_ge in E].
      * cbn [app placed key_of shown]. split; [exact I|].
        rewrite slice_length by lia.
        now replace (lastIndex + (start m - lastIndex)) with (start m) by lia.
      * cbn [app]. now replace lastIndex with (start m) by lia.
Qed.

(** C9.  [HighlightText] always returns, and the texts of the elements it
    returns (the gaps, the tagged matches and the trailing text), put end to
    end, are the input text: the elements follow one another without
    overlap, nothing is dropped and nothing is repeated, and every tagged
    element lies at the offset its key names. *)
Theorem HighlightText_partition (searchQuery : list ascii)
    (chapterHighlights : list Highlight.t) (text : list ascii) :
  exists elements : list element,
    HighlightText searchQuery chapterHighlights text = Some elements /\
    concat (map shown elements) = text /\
    placed 0 elements.
Proof.
  unfold HighlightText.
  destruct (blank searchQuery && (length chapterHighlights =? 0)).
  { exists [Plain text]. simpl. rewrite app_nil_r. repeat split. }
  destruct (searchMatches_ranges searchQuery text) as (ranges & -> & Hch).
  destruct (forEachHighlight_wf text chapterHighlights 0) as (notes & -> & Hnotes).
  assert (Hwf : Forall (wf text) (sort (map searchMatch ranges ++ notes))).
  { apply sort_Forall, Forall_app. split; [|exact Hnotes].
    apply (chained_wf text _ 0); [intros r; split; reflexivity|exact Hch]. }
  destruct (sweep_partition text _ Hwf 0 ltac:(lia)) as ((_ & Hhi) & Hcat & Hplaced).
  destruct (sweep text (sort (map searchMatch ranges ++ notes)) 0)
    as [elements lastIndex] eqn:Esweep.
  cbn [fst snd] in *.
  eexists. split; [reflexivity|].
  assert (Hend : forall pos els, placed pos els ->
             forall tail, placed (pos + length (concat (map shown els))) tail ->
             placed pos (els ++ tail)).
  { intros pos els. revert pos.
    induction els as [|e els IHels]; intros pos Hp tail Ht.
    - simpl in Ht. now rewrite Nat.add_0_r in Ht.
    - destruct Hp as [He Hp]. cbn [app placed]. split; [exact He|].
      apply IHels; [exact Hp|].
      simpl in Ht. rewrite length_app in Ht.
      now rewrite Nat.add_assoc in Ht. }
  split.
  - rewrite map_app, concat_app, Hcat.
    destruct (lastIndex <? length text) eqn:E.
    + simpl. rewrite app_nil_r. unfold slice. rewrite Nat.sub_0_r.
      apply firstn_skipn.
    + apply Nat.ltb_ge in E. simpl. rewrite app_nil_r.
      replace lastIndex with (length text) by lia. apply slice_from_start.
  - apply Hend; [exact Hplaced|].
    destruct (lastIndex <? length text); simpl; auto.
Qed.

(** *** First come, first kept *)

(** Sweeping a list is sweeping its front, then the rest from the
    [lastIndex] reached. *)
Lemma sweep_app (text : list ascii) (pre post : list Match) (lastIndex : nat) :
  sweep text (pre ++ post) lastIndex
  = (fst (sweep text pre lastIndex)
       ++ fst (sweep text post (snd (sweep text pre lastIndex))),
     snd (sweep text post (snd (sweep text pre lastIndex)))).
Proof.
  revert lastIndex. induction pre as [|m pre IH]; intros lastIndex.
  - simpl. now destruct (sweep text post lastIndex).
  - rewrite <- app_comm_cons, !sweep_cons.
    destruct (start m <? lastIndex); [apply IH|].
    rewrite IH. cbn [fst snd]. now rewrite <- app_assoc.
Qed.

(** [lastIndex] is the greatest end of the matches pushed so far. *)
Lemma sweep_ends (text : list ascii) (matches : list Match) :
  Forall (wf text) matches ->
  forall lastIndex : nat,
    lastIndex <= length text ->
    (forall e key, In e (fst (sweep text matches lastIndex)) ->
                   key_of e = Some key ->
                   key + length (shown e) <= snd (sweep text matches lastIndex)) /\
    (snd (sweep text matches lastIndex) = lastIndex \/
     exists e key, In e (fst (sweep text matches lastIndex)) /\
                   key_of e = Some key /\
                   key + length (shown e) = snd (sweep text matches lastIndex)).
Proof.
  induction 1 as [|m rest [Hm1 Hm2] Hrest IH]; intros lastIndex Hli.
  - simpl. split; [intros e key []|now left].
  - rewrite sweep_cons. destruct (start m <? lastIndex) eqn:Eskip; [now apply IH|].
    apply Nat.ltb_ge in Eskip.
    destruct (IH (end_ m) Hm2) as (Hall & Hlast).
    destruct (sweep_partition text rest Hrest (end_ m) Hm2) as ((Hlo & _) & _).
    assert (Hend : start m + length (shown (render text m)) = end_ m).
    { rewrite shown_render, slice_length; lia. }
    cbn [fst snd]. split.
    + intros e key Hin Hkey. apply in_app_or in Hin. destruct Hin as [Hin|[<-|Hin]].
      * destruct (lastIndex <? start m); [|destruct Hin].
        destruct Hin as [<-|[]]. discriminate Hkey.
      * rewrite key_of_render in Hkey. injection Hkey as <-. lia.
      * now apply Hall.
    + right. destruct Hlast as [Heq|(e & key & Hin & Hkey & Heq)].
      * exists (render text m), (start m).
        split; [apply in_or_app; right; now left|].
        split; [apply key_of_render|lia].
      * exists e, key. split; [apply in_or_app; right; now right|now split].
Qed.

Lemma covered_lastIndex (text : list ascii) (pre : list Match) (m : Match) :
  Forall (wf text) pre ->
  covered (fst (sweep text pre 0)) m <-> start m < snd (sweep text pre 0).
Proof.
  intros Hpre. destruct (sweep_ends text pre Hpre 0 ltac:(lia)) as (Hall & Hlast).
  split.
  - intros (e & key & Hin & Hkey & Hlt). specialize (Hall e key Hin Hkey). lia.
  - intros Hlt. destruct Hlast as [Heq|(e & key & Hin & Hkey & Heq)]; [lia|].
    exists e, key. repeat split; try assumption. lia.
Qed.

Lemma before_split (a b : Match) (l : list Match) :
  before a b l -> exists pre mid post, l = pre ++ a :: mid ++ b :: post.
Proof.
  induction l as [|x l IH]; simpl; [intros []|].
  intros [[-> Hin]|H].
  - apply in_split in Hin. destruct Hin as (mid & post & ->).
    now exists [], mid, post.
  - destruct (IH H) as (pre & mid & post & ->).
    now exists (x :: pre), mid, post.
Qed.

Lemma before_app (a b : Match) (l1 l2 : list Match) :
  In a l1 -> In b l2 -> before a b (l1 ++ l2).
Proof.
  intros Ha Hb. induction l1 as [|x l1 IH]; [destruct Ha|].
  simpl. destruct Ha as [->|Ha].
  - left. split; [reflexivity|]. apply in_or_app. now right.
  - right. now apply IH.
Qed.

Lemma In_insert (b m : Match) (sorted : list Match) :
  In b (insert m sorted) <-> b = m \/ In b sorted.
Proof.
  induction sorted as [|m' rest IH]; simpl.
  - intuition congruence.
  - destruct (start m <=? start m'); simpl; rewrite ?IH; intuition congruence.
Qed.

Lemma In_sort (b : Match) (matches : list Match) :
  In b (sort matches) <-> In b matches.
Proof.
  induction matches as [|m rest IH]; simpl; [reflexivity|].
  rewrite In_insert, IH. intuition congruence.
Qed.

Lemma insert_before_later (a b : Match) (sorted : list Match) :
  In b sorted -> start a <= start b -> before a b (insert a sorted).
Proof.
  intros Hin Hle. induction sorted as [|m' rest IH]; [destruct Hin|].
  simpl. destruct (start a <=? start m') eqn:E.
  - left. now split.
  - apply Nat.leb_gt in E. right. apply IH.
    destruct Hin as [->|Hin]; [lia|exact Hin].
Qed.

Lemma insert_keeps_before (a b m : Match) (sorted : list Match) :
  before a b sorted -> before a b (insert m sorted).
Proof.
  induction sorted as [|m' rest IH]; simpl; [intros []|].
  intros H. destruct (start m <=? start m').
  - right. exact H.
  - destruct H as [[-> Hin]|H].
    + left. split; [reflexivity|]. apply In_insert. now right.
    + right. now apply IH.
Qed.

Lemma insert_ascending (m : Match) (sorted : list Match) :
  ascending sorted -> ascending (insert m sorted).
Proof.
  induction sorted as [|m' rest IH]; simpl; [now repeat constructor|].
  intros [Hall Hrest]. destruct (start m <=? start m') eqn:E.
  - apply Nat.leb_le in E. simpl. repeat split; try assumption.
    constructor; [exact E|].
    rewrite List.Forall_forall in Hall. apply List.Forall_forall.
    intros b Hb. specialize (Hall b Hb). lia.
  - apply Nat.leb_gt in E. simpl. split; [|now apply IH].
    apply List.Forall_forall. intros b Hb. apply In_insert in Hb.
    destruct Hb as [->|Hb]; [lia|].
    rewrite List.Forall_forall in Hall. now apply Hall.
Qed.

(** The sorted list is in ascending order of start. *)
Lemma sort_ascending (matches : list Match) : ascending (sort matches).
Proof.
  induction matches as [|m rest IH]; simpl; [exact I|].
  now apply insert_ascending.
Qed.

(** The sort is stable: it keeps [a] before [b] when [b] does not start
    before [a]. *)
Lemma sort_stable (a b : Match) (matches : list Match) :
  before a b matches -> start a <= start b -> before a b (sort matches).
Proof.
  intros H Hle. induction matches as [|m rest IH]; [destruct H|].
  simpl. destruct H as [[-> Hin]|H].
  - apply insert_before_later; [now apply In_sort|exact Hle].
  - apply insert_keeps_before. now apply IH.
Qed.

Lemma forEachHighlight_notes (text : list ascii) (chapterHighlights : list Highlight.t)
    (index : nat) (notes : list Match) :
  forEachHighlight text index chapterHighlights = Some notes ->
  Forall (fun m => type m <> search) notes.
Proof.
  revert index notes.
  induction chapterHighlights as [|h rest IH]; intros index notes; simpl.
  - intros [= <-]. constructor.
  - destruct (noteMatches_ranges text index h) as (ranges & -> & _).
    destruct (forEachHighlight text (S index) rest) as [later|] eqn:E; [|discriminate].
    intros [= <-]. apply Forall_app. split; [|now apply (IH (S index))].
    apply List.Forall_forall. intros m Hm. apply in_map_iff in Hm.
    destruct Hm as (r & <- & _). discriminate.
Qed.

Lemma searchMatches_search (searchQuery text : list ascii) (found : list Match) :
  searchMatches searchQuery text = Some found ->
  Forall (fun m => type m = search) found.
Proof.
  destruct (searchMatches_ranges searchQuery text) as (ranges & -> & _).
  intros [= <-]. apply List.Forall_forall. intros m Hm. apply in_map_iff in Hm.
  now destruct Hm as (r & <- & _).
Qed.

(** The matches [HighlightText] sweeps over are ranges of the text. *)
Lemma merged_wf (searchQuery : list ascii) (chapterHighlights : list Highlight.t)
    (text : list ascii) (found notes : list Match) :
  searchMatches searchQuery text = Some found ->
  forEachHighlight text 0 chapterHighlights = Some notes ->
  Forall (wf text) (sort (found ++ notes)).
Proof.
  destruct (searchMatches_ranges searchQuery text) as (ranges & -> & Hch).
  destruct (forEachHighlight_wf text chapterHighlights 0) as (notes' & -> & Hnotes).
  intros [= <-] [= <-]. apply sort_Forall, Forall_app. split; [|exact Hnotes].
  apply (chained_wf text _ 0); [intros r; split; reflexivity|exact Hch].
Qed.

(** C4, as the code has it.  In the sweep over the sorted matches:
    a match that starts before the end of a match already pushed is
    skipped, and the result is the one the sweep gives without it;
    a match that does not is pushed whole, after the gap before it;
    of two matches with the same start the later one in the list is
    always skipped, and the earlier one is pushed unless the first rule skips
    it.  The list [HighlightText] sweeps over is in ascending order of
    start, and in it a match of the search term comes before a match of an
    annotation with the same start. *)
Theorem sweep_first_wins (text : list ascii) :
  (forall matches : list Match,
      Forall (wf text) matches ->
      (forall pre m post,
          matches = pre ++ m :: post ->
          (covered (fst (sweep text pre 0)) m ->
           sweep text matches 0 = sweep text (pre ++ post) 0) /\
          (~ covered (fst (sweep text pre 0)) m ->
           exists gap,
             fst (sweep text matches 0)
             = fst (sweep text pre 0) ++ gap
                 ++ render text m :: fst (sweep text post (end_ m)) /\
             concat (map shown gap)
             = slice (snd (sweep text pre 0)) (start m) text /\
             shown (render text m) = slice (start m) (end_ m) text)) /\
      (forall pre m1 mid m2 post,
          matches = pre ++ m1 :: mid ++ m2 :: post ->
          start m1 = start m2 ->
          sweep text matches 0 = sweep text (pre ++ m1 :: mid ++ post) 0)) /\
  (forall (searchQuery : list ascii) (chapterHighlights : list Highlight.t)
          (found notes : list Match),
      searchMatches searchQuery text = Some found ->
      forEachHighlight text 0 chapterHighlights = Some notes ->
      Forall (wf text) (sort (found ++ notes)) /\
      ascending (sort (found ++ notes)) /\
      forall a b,
        In a found -> In b notes -> start a = start b ->
        type a = search /\ type b <> search /\
        exists pre mid post, sort (found ++ notes) = pre ++ a :: mid ++ b :: post).
Proof.
  split.
  - intros matches Hwf.
    assert (Hdrop : forall pre m post,
               Forall (wf text) pre ->
               start m < snd (sweep text pre 0) ->
               sweep text (pre ++ m :: post) 0 = sweep text (pre ++ post) 0).
    { intros pre m post Hpre Hlt. rewrite !sweep_app, sweep_cons.
      apply Nat.ltb_lt in Hlt. now rewrite Hlt. }
    split.
    + intros pre m post ->.
      apply Forall_app in Hwf. destruct Hwf as [Hpre Hrest].
      rewrite (covered_lastIndex text pre m Hpre). split.
      * now apply Hdrop.
      * intros Hge. apply Nat.nlt_ge, Nat.ltb_ge in Hge.
        rewrite sweep_app, sweep_cons, Hge. cbn [fst].
        eexists. split; [reflexivity|]. split; [|apply shown_render].
        apply Nat.ltb_ge in Hge.
        destruct (snd (sweep text pre 0) <? start m) eqn:E; simpl.
        -- now rewrite app_nil_r.
        -- apply Nat.ltb_ge in E.
           replace (start m) with (snd (sweep text pre 0)) by lia.
           now rewrite slice_empty.
    + intros pre m1 mid m2 post -> Hsame.
      replace (pre ++ m1 :: mid ++ m2 :: post)
        with ((pre ++ m1 :: mid) ++ m2 :: post) in *
        by (now rewrite <- app_assoc).
      replace (pre ++ m1 :: mid ++ post) with ((pre ++ m1 :: mid) ++ post)
        by (now rewrite <- app_assoc).
      apply Forall_app in Hwf. destruct Hwf as [Hfront _].
      apply Hdrop; [exact Hfront|].
      apply Forall_app in Hfront. destruct Hfront as [Hpre Hm1mid].
      inversion Hm1mid as [|? ? [Hm1 Hm1'] Hmid]; subst.
      destruct (sweep_partition text pre Hpre 0 ltac:(lia)) as ((_ & Hpre_hi) & _).
      rewrite sweep_app, sweep_cons. cbn [snd].
      destruct (start m1 <? snd (sweep text pre 0)) eqn:E.
      * apply Nat.ltb_lt in E.
        destruct (sweep_partition text mid Hmid _ Hpre_hi) as ((Hlo & _) & _). lia.
      * cbn [snd].
        destruct (sweep_partition text mid Hmid _ Hm1') as ((Hlo & _) & _). lia.
  - intros searchQuery chapterHighlights found notes Hfound Hnotes.
    split; [now apply (merged_wf searchQuery chapterHighlights)|].
    split; [apply sort_ascending|].
    intros a b Ha Hb Hsame.
    pose proof (searchMatches_search _ _ _ Hfound) as Hs.
    pose proof (forEachHighlight_notes _ _ _ _ Hnotes) as Hn.
    rewrite List.Forall_forall in Hs, Hn.
    split; [now apply Hs|]. split; [now apply Hn|].
    apply before_split, sort_stable; [now apply before_app|lia].
Qed.

(** *** What an annotation matches *)

Lemma join_cons (p q : list atom) (rest : list (list atom)) :
  join [Spaces] (p :: q :: rest) = p ++ Spaces :: join [Spaces] (q :: rest).
Proof. reflexivity. Qed.

Lemma matchHere_escape_app (w u : list ascii) (re : list atom) (s : list ascii) :
  same_text u w ->
  matchHere (escape w ++ re) (u ++ s)
  = option_map (Nat.add (length u)) (matchHere re s).
Proof.
  induction 1 as [|x c u w Hxc Huw IH]; simpl.
  - now destruct (matchHere re s).
  - rewrite Hxc, IH. now destruct (matchHere re s).
Qed.

Lemma matchHere_escape_inv (w : list ascii) (re : list atom) (s : list ascii) (n : nat) :
  matchHere (escape w ++ re) s = Some n ->
  exists u s' k,
    s = u ++ s' /\ same_text u w /\ matchHere re s' = Some k /\ n = length u + k.
Proof.
  revert s n. induction w as [|c w IH]; intros s n; simpl.
  - intros H. exists [], s, n. repeat split; [constructor|exact H].
  - destruct s as [|x s]; [discriminate|].
    destruct (same_char x c) eqn:Hxc; [|discriminate].
    destruct (matchHere (escape w ++ re) s) as [m|] eqn:E; simpl; intros [= <-].
    destruct (IH s m E) as (u & s' & k & -> & Hu & Hk & ->).
    exists (x :: u), s', k. repeat split; [now constructor|exact Hk].
Qed.

(** [[\s\n]+] takes the whole run of white space when a letter follows. *)
Lemma matchHere_Spaces_run (re : list atom) (gap s : list ascii) (k : nat) :
  gap <> [] -> Forall (fun x => is_space x = true) gap ->
  (forall c s', s = c :: s' -> is_space c = false) ->
  matchHere re s = Some k ->
  matchHere (Spaces :: re) (gap ++ s) = Some (length gap + k).
Proof.
  intros Hne Hall Hs Hk. induction Hall as [|x gap Hx Hall IH]; [contradiction|].
  cbn [app length]. rewrite matchHere_Spaces_cons, Hx.
  destruct gap as [|y gap].
  - cbn [app]. destruct s as [|c s'].
    + rewrite matchHere_Spaces_nil, Hk. reflexivity.
    + rewrite matchHere_Spaces_cons, (Hs c s' eq_refl), Hk. reflexivity.
  - rewrite IH by discriminate. reflexivity.
Qed.

Lemma matchHere_Spaces_inv (re : list atom) (s : list ascii) (n : nat) :
  matchHere (Spaces :: re) s = Some n ->
  exists gap s' k,
    s = gap ++ s' /\ gap <> [] /\ Forall (fun x => is_space x = true) gap /\
    matchHere re s' = Some k /\ n = length gap + k.
Proof.
  revert n. induction s as [|x s IH]; intros n.
  - rewrite matchHere_Spaces_nil. discriminate.
  - rewrite matchHere_Spaces_cons. destruct (is_space x) eqn:Hx; [|discriminate].
    destruct (matchHere (Spaces :: re) s) as [m|] eqn:E.
    + intros [= <-].
      destruct (IH m eq_refl) as (gap & s' & k & -> & _ & Hall & Hk & ->).
      exists (x :: gap), s', k.
      repeat split; [discriminate|now constructor|exact Hk].
    + destruct (matchHere re s) as [k|] eqn:E'; simpl; intros [= <-].
      exists [x], s, k. repeat split; [discriminate|now repeat constructor|exact E'].
Qed.

(** An occurrence of words begins with a letter. *)
Lemma occurrence_head (ws : list (list ascii)) (m : list ascii) :
  Forall word ws -> occurrence ws m ->
  exists c m', m = c :: m' /\ is_space c = false.
Proof.
  intros Hws Hocc.
  assert (H : forall w u, word w -> same_text u w ->
                          forall tail, exists c m', u ++ tail = c :: m' /\ is_space c = false).
  { intros w u [Hne Hall] Hu tail. destruct Hu as [|x c u w Hxc Hu]; [contradiction|].
    exists x, (u ++ tail). split; [reflexivity|].
    rewrite (same_char_space x c Hxc). now inversion Hall. }
  destruct Hocc as [w u Hu|w ws u gap rest Hu _ _ _ _];
    inversion Hws as [|? ? Hw _]; subst.
  - destruct (H w u Hw Hu []) as (c & m' & E & Hc). rewrite app_nil_r in E. eauto.
  - apply (H w u Hw Hu).
Qed.

Lemma occurrence_matches (ws : list (list ascii)) (m : list ascii) :
  Forall word ws -> occurrence ws m ->
  forall tail, matchHere (join [Spaces] (map escape ws)) (m ++ tail) = Some (length m).
Proof.
  intros Hws Hocc. induction Hocc as [w u Hu|w ws u gap rest Hu Hne Hgap Hws' Hocc IH];
    intros tail.
  - cbn [map join]. rewrite <- (app_nil_r (escape w)), (matchHere_escape_app _ _ _ _ Hu).
    simpl. now rewrite Nat.add_0_r.
  - inversion Hws as [|? ? Hw Hrest]; subst.
    destruct ws as [|w' ws]; [contradiction|].
    cbn [map]. rewrite join_cons. rewrite <- !app_assoc.
    rewrite (matchHere_escape_app _ _ _ _ Hu).
    rewrite (matchHere_Spaces_run _ gap (rest ++ tail) (length rest) Hne Hgap).
    + simpl. now rewrite !length_app.
    + intros c s' E.
      destruct (occurrence_head _ _ Hrest Hocc) as (c' & m' & -> & Hc').
      now injection E as <- _.
    + apply (IH Hrest).
Qed.

Lemma matches_occurrence (ws : list (list ascii)) :
  ws <> [] ->
  forall (s : list ascii) (n : nat),
    matchHere (join [Spaces] (map escape ws)) s = Some n ->
    occurrence ws (firstn n s).
Proof.
  induction ws as [|w ws IH]; [contradiction|]. intros _ s n.
  destruct ws as [|w' ws].
  - cbn [map join]. rewrite <- (app_nil_r (escape w)). intros H.
    destruct (matchHere_escape_inv _ _ _ _ H) as (u & s' & k & -> & Hu & Hk & ->).
    simpl in Hk. injection Hk as <-. rewrite Nat.add_0_r.
    rewrite firstn_app, Nat.sub_diag, firstn_all, firstn_O, app_nil_r.
    now constructor.
  - cbn [map]. rewrite join_cons. intros H.
    destruct (matchHere_escape_inv _ _ _ _ H) as (u & s1 & k1 & -> & Hu & Hk1 & ->).
    destruct (matchHere_Spaces_inv _ _ _ Hk1)
      as (gap & s2 & k2 & -> & Hne & Hgap & Hk2 & ->).
    specialize (IH ltac:(discriminate) s2 k2 Hk2).
    assert (E : firstn (length u + (length gap + k2)) (u ++ gap ++ s2)
                = u ++ gap ++ firstn k2 s2).
    { rewrite firstn_app_2. f_equal. now rewrite firstn_app_2. }
    rewrite E. constructor; try assumption. discriminate.
Qed.

(** The pattern of the words matches at the head of a text exactly the
    occurrences of the words. *)
Lemma matchHere_occurrence (ws : list (list ascii)) (s : list ascii) (n : nat) :
  ws <> [] -> Forall word ws ->
  matchHere (join [Spaces] (map escape ws)) s = Some n
  <-> n <= length s /\ occurrence ws (firstn n s).
Proof.
  intros Hne Hws. split.
  - intros H. split; [now apply matchHere_le in H|now apply matches_occurrence].
  - intros [Hn Hocc].
    rewrite <- (firstn_skipn n s) at 1.
    rewrite (occurrence_matches ws _ Hws Hocc). f_equal.
    rewrite length_firstn. lia.
Qed.

(** *** What the matching loop finds *)

Lemma chained_In (lo hi : nat) (ranges : list (nat * nat)) (r : nat * nat) :
  chained lo hi ranges -> In r ranges -> lo <= fst r /\ fst r < snd r /\ snd r <= hi.
Proof.
  revert lo. induction ranges as [|r' ranges IH]; intros lo Hch []; simpl in Hch.
  - subst r'. lia.
  - destruct Hch as (H1 & H2 & _ & Hch). specialize (IH _ Hch H). lia.
Qed.

(** Every range found is a match at its start. *)
Lemma execAll_found (re : list atom) (s : list ascii) (pos skip : nat)
    (ranges : list (nat * nat)) :
  execAll re s pos skip = Some ranges ->
  forall r, In r ranges ->
            matchHere re (skipn (fst r - pos) s) = Some (snd r - fst r).
Proof.
  revert pos skip ranges.
  induction s as [|x s IH]; intros pos skip ranges; simpl.
  - destruct (matchHere re []); [discriminate|]. intros [= <-] r [].
  - assert (Hlater : forall skip' later,
               execAll re s (S pos) skip' = Some later ->
               forall r, In r later ->
                 matchHere re (skipn (fst r - pos) (x :: s)) = Some (snd r - fst r)).
    { intros skip' later E r Hr.
      pose proof (execAll_chained _ _ _ _ _ E) as Hch.
      assert (Hge : S pos <= fst r).
      { pose proof (chained_In _ _ _ _ Hch Hr). lia. }
      replace (fst r - pos) with (S (fst r - S pos)) by lia.
      simpl. now apply (IH _ _ _ E). }
    destruct skip as [|skip]; [|now apply Hlater].
    destruct (matchHere re (x :: s)) as [[|n]|] eqn:E; [discriminate| |now apply Hlater].
    destruct (execAll re s (S pos) n) as [later|] eqn:E'; [|discriminate].
    simpl. intros [= <-] r [<-|Hr]; [|now apply (Hlater n later)].
    simpl. rewrite Nat.sub_diag. simpl. rewrite E. f_equal. lia.
Qed.

(** Every position at which the pattern matches lies in a range found:
    the loop finds the matches from left to right and only passes over
    those that begin inside an earlier one. *)
Lemma execAll_leftmost (re : list atom) (s : list ascii) (pos skip : nat)
    (ranges : list (nat * nat)) :
  execAll re s pos skip = Some ranges ->
  forall i n, pos + skip <= i -> i < pos + length s ->
              matchHere re (skipn (i - pos) s) = Some n ->
              exists r, In r ranges /\ fst r <= i < snd r.
Proof.
  revert pos skip ranges.
  induction s as [|x s IH]; intros pos skip ranges; simpl.
  - intros _ i n H1 H2. lia.
  - assert (Hlater : forall skip' later,
               execAll re s (S pos) skip' = Some later ->
               forall i n, S pos + skip' <= i -> i < pos + S (length s) ->
                 matchHere re (skipn (i - pos) (x :: s)) = Some n ->
                 exists r, In r later /\ fst r <= i < snd r).
    { intros skip' later E i n H1 H2 Hm.
      replace (i - pos) with (S (i - S pos)) in Hm by lia.
      simpl in Hm. apply (IH _ _ _ E i n); [lia|lia|exact Hm]. }
    destruct skip as [|skip].
    + destruct (matchHere re (x :: s)) as [[|k]|] eqn:E; [discriminate| |].
      * destruct (execAll re s (S pos) k) as [later|] eqn:E'; [|discriminate].
        simpl. intros [= <-] i n H1 H2 Hm.
        destruct (Nat.lt_ge_cases i (pos + S k)) as [Hin|Hout].
        -- exists (pos, pos + S k). split; [now left|simpl; lia].
        -- destruct (Hlater k later E' i n ltac:(lia) H2 Hm) as (r & Hr & Hi).
           exists r. split; [now right|exact Hi].
      * intros H i n H1 H2 Hm.
        destruct (Nat.eq_dec i pos) as [->|Hne].
        -- rewrite Nat.sub_diag in Hm. simpl in Hm. congruence.
        -- apply (Hlater 0 ranges H i n); [lia|exact H2|exact Hm].
    + intros H i n H1 H2 Hm. apply (Hlater skip ranges H i n); [lia|exact H2|exact Hm].
Qed.

(** *** Annotations *)

(** What [noteMatches] pushes for an annotation that is not blank. *)
Lemma noteMatches_occurrences (h : Highlight.t) (index : nat) (text : list ascii) :
  blank (Highlight.text h) = false ->
  exists ranges,
    noteMatches text index h = Some (map (noteMatch h index) ranges) /\
    (forall r, In r ranges ->
               occurrence (tokens (Highlight.text h)) (slice (fst r) (snd r) text)) /\
    (forall i n, i + n <= length text ->
                 occurrence (tokens (Highlight.text h)) (slice i (i + n) text) ->
                 exists r, In r ranges /\ fst r <= i < snd r).
Proof.
  intros Hb. unfold noteMatches. rewrite Hb.
  destruct (note_pattern _ Hb) as [-> Hre].
  destruct (clean_words _ Hb) as [_ Hne].
  pose proof (tokens_words (Highlight.text h)) as Hws.
  destruct (execAll_total _ text 0 0 Hre) as [ranges E].
  exists ranges. rewrite E. split; [reflexivity|]. split.
  - intros r Hr. pose proof (execAll_found _ _ _ _ _ E r Hr) as Hm.
    rewrite Nat.sub_0_r in Hm. now apply matches_occurrence in Hm.
  - intros i n Hin Hocc.
    assert (Hs : slice i (i + n) text = firstn n (skipn i text)).
    { unfold slice. f_equal. lia. }
    assert (Hn : length (slice i (i + n) text) = n) by (rewrite slice_length; lia).
    destruct (occurrence_head _ _ Hws Hocc) as (c & m' & Hc & _).
    assert (Hpos : 0 < n) by (rewrite <- Hn, Hc; simpl; lia).
    apply (execAll_leftmost _ _ _ _ _ E i n); [lia|lia|].
    rewrite Nat.sub_0_r, <- (firstn_skipn n (skipn i text)), <- Hs.
    rewrite (occurrence_matches _ _ Hws Hocc). now rewrite Hn.
Qed.

(** C5.  For an annotation whose text is not blank, the words the matcher
    joins are the words of the annotation (its runs of code units that are
    not white space: what is left after the runs of white space are replaced
    by one space, the ends trimmed and the result split at the spaces); the
    pattern matches at the head of a text exactly the occurrences of these
    words, up to case and with any white space, one code unit or more,
    between a word and the next; every match pushed is such an occurrence,
    and every occurrence in the text lies in a match pushed.  The annotation
    "quick  brown" on the text "quick", line feed, "brown" gives one
    annotation span over the whole text, and one span over these words
    inside a sentence.  An annotation of white space only pushes no
    match. *)
Theorem annotation_matching :
  (forall (h : Highlight.t) (index : nat) (text : list ascii),
      blank (Highlight.text h) = false ->
      split (trim (replaceSpaces false (Highlight.text h))) = tokens (Highlight.text h) /\
      tokens (Highlight.text h) <> [] /\
      Forall word (tokens (Highlight.text h)) /\
      (forall s n,
          matchHere (join [Spaces] (map escape (tokens (Highlight.text h)))) s = Some n
          <-> n <= length s /\ occurrence (tokens (Highlight.text h)) (firstn n s)) /\
      exists ranges,
        noteMatches text index h = Some (map (noteMatch h index) ranges) /\
        (forall r, In r ranges ->
                   occurrence (tokens (Highlight.text h)) (slice (fst r) (snd r) text)) /\
        (forall i n, i + n <= length text ->
                     occurrence (tokens (Highlight.text h)) (slice i (i + n) text) ->
                     exists r, In r ranges /\ fst r <= i < snd r)) /\
  HighlightText [] [quickBrown] wrapped = Some [NoteSpan quickBrown 1 0 wrapped] /\
  HighlightText [] [quickBrown] sentence
  = Some [Plain (list_ascii_of_string "The ");
          NoteSpan quickBrown 1 4 wrappedInSentence;
          Plain (list_ascii_of_string " fox")] /\
  (forall (h : Highlight.t) (index : nat) (text : list ascii),
      Forall (fun c => is_space c = true) (Highlight.text h) ->
      noteMatches text index h = Some []).
Proof.
  split; [|split; [|split]].
  - intros h index text Hb.
    destruct (clean_words _ Hb) as [Hsplit Hne].
    pose proof (tokens_words (Highlight.text h)) as Hws.
    split; [exact Hsplit|]. split; [exact Hne|]. split; [exact Hws|]. split.
    + intros s n. now apply matchHere_occurrence.
    + now apply noteMatches_occurrences.
  - reflexivity.
  - reflexivity.
  - intros h index text Hall. apply blank_spaces in Hall.
    unfold noteMatches. now rewrite Hall.
Qed.

Lemma annotation_matching_witness :
  blank (Highlight.text quickBrown) = false /\
  split (trim (replaceSpaces false (Highlight.text quickBrown)))
  = [list_ascii_of_string "quick"; list_ascii_of_string "brown"] /\
  noteMatches wrapped 0 (highlight "blank" "   ") = Some [].
Proof.
  split; [reflexivity|]. split.
  - exact (proj1 (proj1 annotation_matching quickBrown 0 wrapped eq_refl)).
  - apply (proj2 (proj2 (proj2 annotation_matching))). repeat constructor.
Defined.

(** *** A tie under a longer annotation *)

Lemma merged_matches :
  searchMatches termB abcb = Some [searchMatch (2, 3); searchMatch (6, 7)] /\
  forEachHighlight abcb 0 [noteABC; noteB]
  = Some [noteMatch noteABC 0 (0, 5); noteMatch noteB 1 (2, 3); noteMatch noteB 1 (6, 7)] /\
  sort ([searchMatch (2, 3); searchMatch (6, 7)]
        ++ [noteMatch noteABC 0 (0, 5); noteMatch noteB 1 (2, 3); noteMatch noteB 1 (6, 7)])
  = merged.
Proof. repeat split; reflexivity. Qed.

(** C4, as the spec states it, fails.  The search match and the annotation
    match at offset 2 have the same start, and the search match is the
    earlier of the two in the sorted list; it is not kept: the longer
    annotation pushed before them covers both. *)
Lemma earlier_of_tie_dropped :
  searchMatches termB abcb = Some [searchMatch (2, 3); searchMatch (6, 7)] /\
  forEachHighlight abcb 0 [noteABC; noteB]
  = Some [noteMatch noteABC 0 (0, 5); noteMatch noteB 1 (2, 3); noteMatch noteB 1 (6, 7)] /\
  sort ([searchMatch (2, 3); searchMatch (6, 7)]
        ++ [noteMatch noteABC 0 (0, 5); noteMatch noteB 1 (2, 3); noteMatch noteB 1 (6, 7)])
  = [noteMatch noteABC 0 (0, 5);
     searchMatch (2, 3); noteMatch noteB 1 (2, 3);
     searchMatch (6, 7); noteMatch noteB 1 (6, 7)] /\
  HighlightText termB [noteABC; noteB] abcb
  = Some [NoteSpan noteABC 1 0 (list_ascii_of_string "a b c");
          Plain (list_ascii_of_string " ");
          SearchMark 6 (list_ascii_of_string "b")] /\
  ~ In (render abcb (searchMatch (2, 3))) (fst (sweep abcb merged 0)).
Proof.
  repeat split; try reflexivity.
  simpl. intros [H|[H|[H|[]]]]; discriminate H.
Qed.

Lemma sweep_first_wins_witness :
  Forall (wf abcb) merged /\
  sweep abcb merged 0
  = sweep abcb [noteMatch noteABC 0 (0, 5); searchMatch (2, 3);
                searchMatch (6, 7); noteMatch noteB 1 (6, 7)] 0 /\
  exists pre mid post,
    sort ([searchMatch (2, 3); searchMatch (6, 7)]
          ++ [noteMatch noteABC 0 (0, 5); noteMatch noteB 1 (2, 3);
              noteMatch noteB 1 (6, 7)])
    = pre ++ searchMatch (6, 7) :: mid ++ noteMatch noteB 1 (6, 7) :: post.
Proof.
  assert (Hwf : Forall (wf abcb) merged).
  { unfold merged, wf. repeat constructor; simpl; lia. }
  split; [exact Hwf|]. split.
  - exact (proj2 (proj1 (sweep_first_wins abcb) merged Hwf)
             [noteMatch noteABC 0 (0, 5)] (searchMatch (2, 3)) []
             (noteMatch noteB 1 (2, 3))
             [searchMatch (6, 7); noteMatch noteB 1 (6, 7)] eq_refl eq_refl).
  - destruct (proj2 (sweep_first_wins abcb) termB [noteABC; noteB] _ _
                (proj1 merged_matches) (proj1 (proj2 merged_matches)))
      as (_ & _ & Htie).
    exact (proj2 (proj2 (Htie (searchMatch (6, 7)) (noteMatch noteB 1 (6, 7))
                           ltac:(simpl; tauto) ltac:(simpl; tauto) eq_refl))).
Defined.

End MatcherFacts.

(** * Properties of the rest of the reading surface *)

(** ** Comparisons of finite numbers *)
Module JSOrder.
Import JS.

Lemma gt_Fin (a b : Q) : gt (Fin a) (Fin b) = true <-> (b < a)%Q.
Proof.
  unfold gt, compare. rewrite Qgt_alt.
  destruct (a ?= b)%Q; split; intros H; congruence.
Qed.

Lemma gt_Fin_false (a b : Q) : gt (Fin a) (Fin b) = false <-> (a <= b)%Q.
Proof.
  unfold gt, compare. rewrite Qle_alt.
  destruct (a ?= b)%Q; split; intros H; congruence.
Qed.

Lemma lt_Fin (a b : Q) : lt (Fin a) (Fin b) = true <-> (a < b)%Q.
Proof.
  unfold lt, compare. rewrite Qlt_alt.
  destruct (a ?= b)%Q; split; intros H; congruence.
Qed.

Lemma lt_Fin_false (a b : Q) : lt (Fin a) (Fin b) = false <-> (b <= a)%Q.
Proof.
  rewrite <- Bool.not_true_iff_false, lt_Fin. split.
  - apply Qnot_lt_le.
  - apply Qle_not_lt.
Qed.

Lemma le_Fin (a b : Q) : le (Fin a) (Fin b) = true <-> (a <= b)%Q.
Proof.
  unfold le, compare. rewrite Qle_alt.
  destruct (a ?= b)%Q; split; intros H; congruence.
Qed.

Lemma ge_of_Z (a b : Z) : ge (of_Z a) (of_Z b) = (b <=? a)%Z.
Proof.
  unfold ge. rewrite JSFacts.compare_of_Z, Z.leb_antisym. unfold Z.ltb.
  now destruct (a ?= b)%Z.
Qed.

Lemma le_of_Z (a b : Z) : le (of_Z a) (of_Z b) = (a <=? b)%Z.
Proof.
  unfold le. rewrite JSFacts.compare_of_Z. unfold Z.leb.
  now destruct (a ?= b)%Z.
Qed.

Lemma strict_eq_of_Z (a b : Z) : strict_eq (of_Z a) (of_Z b) = (a =? b)%Z.
Proof.
  unfold strict_eq. rewrite JSFacts.compare_of_Z.
  destruct (Z.compare_spec a b) as [->|H|H].
  - now rewrite Z.eqb_refl.
  - symmetry. apply Z.eqb_neq. lia.
  - symmetry. apply Z.eqb_neq. lia.
Qed.

(** A number that is not NaN is strictly equal to itself. *)
Lemma strict_eq_refl (a : number) : a <> NaN -> strict_eq a a = true.
Proof.
  destruct a as [x| | |]; try reflexivity; [|congruence].
  intros _. unfold strict_eq, compare.
  now rewrite (proj1 (Qeq_alt x x) (Qeq_refl x)).
Qed.

(** The difference of a number and itself is never more than 1 away from
    zero (it is zero, or NaN for an infinity). *)
Lemma close_to_itself (a : number) :
  gt (PagedReaderUI.Math_abs (sub a a)) (of_Z 1) = false.
Proof.
  destruct a as [x| | |]; try reflexivity.
  unfold sub, neg, add, PagedReaderUI.Math_abs, of_Z.
  apply gt_Fin_false.
  rewrite Qred_correct, Qred_correct, Qred_correct.
  setoid_replace (x + - x)%Q with 0%Q using relation Qeq by ring.
  discriminate.
Qed.

End JSOrder.

(** ** The resize observer, the inputs and the buttons *)
Module PagedReaderUIFacts.
Import JS JSFacts JSOrder PagedReader PagedReaderUI.

(** X1.  The resize observer settles: an entry leaves the stored
    dimensions within one unit of the rectangle it reports, in width and in
    height, and the same entry once more changes nothing; a batch of
    entries leaves what its last entry leaves. *)
Theorem observeEntry_settles (width height : number) (prev : option LayoutDims) :
  observeEntry width height (observeEntry width height prev)
  = observeEntry width height prev
  /\ (exists dims,
        observeEntry width height prev = Some dims /\
        gt (Math_abs (sub (PagedReader.width dims) width)) (of_Z 1) = false /\
        gt (Math_abs (sub (PagedReader.height dims) height)) (of_Z 1) = false)
  /\ forall entries,
      resizeObserved (entries ++ [(width, height)]) prev
      = observeEntry width height (resizeObserved entries prev).
Proof.
  assert (Hlast : forall entries,
             resizeObserved (entries ++ [(width, height)]) prev
             = observeEntry width height (resizeObserved entries prev)).
  { intros entries. unfold resizeObserved. now rewrite fold_left_app. }
  refine ((fun H => conj (proj1 H) (conj (proj2 H) Hlast)) _). clear Hlast.
  assert (Hnew : observeEntry width height
                   (Some {| width := width; height := height |})
                 = Some {| width := width; height := height |}).
  { unfold observeEntry. cbn [PagedReader.width PagedReader.height].
    now rewrite !close_to_itself. }
  destruct prev as [dims|]; cbn [observeEntry].
  - destruct (gt (Math_abs (sub (PagedReader.width dims) width)) (of_Z 1)) eqn:Ew;
      [|destruct (gt (Math_abs (sub (PagedReader.height dims) height)) (of_Z 1)) eqn:Eh];
      cbn [orb].
    + split; [exact Hnew|]. eexists. split; [reflexivity|].
      cbn [PagedReader.width PagedReader.height]. now rewrite !close_to_itself.
    + split; [exact Hnew|]. eexists. split; [reflexivity|].
      cbn [PagedReader.width PagedReader.height]. now rewrite !close_to_itself.
    + split.
      * cbn [observeEntry]. now rewrite Ew, Eh.
      * exists dims. now repeat split.
  - split; [exact Hnew|]. eexists. split; [reflexivity|].
    cbn [PagedReader.width PagedReader.height]. now rewrite !close_to_itself.
Qed.

(** For finite rectangles, in rationals: an entry within one unit of the
    stored dimensions is ignored, any other replaces them. *)
Lemma observeEntry_finite (w h pw ph : Q) :
  observeEntry (Fin w) (Fin h) (Some {| width := Fin pw; height := Fin ph |})
  = if Qle_bool (Qabs (pw - w)) 1 && Qle_bool (Qabs (ph - h)) 1
    then Some {| width := Fin pw; height := Fin ph |}
    else Some {| width := Fin w; height := Fin h |}.
Proof.
  assert (H : forall a b : Q,
             gt (Math_abs (sub (Fin a) (Fin b))) (of_Z 1) = negb (Qle_bool (Qabs (a - b)) 1)).
  { intros a b. destruct (Qle_bool (Qabs (a - b)) 1) eqn:E; simpl negb.
    - apply Qle_bool_iff in E. unfold sub, neg, add, Math_abs, of_Z.
      apply gt_Fin_false. rewrite !Qred_correct. exact E.
    - unfold sub, neg, add, Math_abs, of_Z. apply gt_Fin.
      rewrite !Qred_correct. apply Qnot_le_lt. intros Hle.
      assert (Ht : Qle_bool (Qabs (a - b)) 1 = true) by (apply Qle_bool_iff; exact Hle).
      congruence. }
  unfold observeEntry. cbn [PagedReader.width PagedReader.height].
  rewrite !H. now destruct (Qle_bool (Qabs (pw - w)) 1), (Qle_bool (Qabs (ph - h)) 1).
Qed.


(** The calls an input makes are those of one intent. *)
Lemma goToNextPage_one (props : Props) (totalPages : number) :
  (length (goToNextPage props totalPages) <= 1)%nat.
Proof.
  unfold goToNextPage.
  destruct (lt _ _); [simpl; lia|]. destruct (onNextChapter props); simpl; lia.
Qed.

Lemma goToPrevPage_one (props : Props) :
  (length (goToPrevPage props) <= 1)%nat.
Proof.
  unfold goToPrevPage.
  destruct (gt _ _); [simpl; lia|]. destruct (onPrevChapter props); simpl; lia.
Qed.

(** X2.  A drag or a key calls at most one callback of the parent.  A
    release that is at most 50 units away and at most 500 units per time
    fast, in either direction, calls none; a release to the left beyond a
    threshold advances even when the other measure points right. *)
Theorem one_intent_per_input (props : Props) (totalPages : number) :
  (forall offset_x velocity_x,
      (length (onDragEnd props totalPages offset_x velocity_x) <= 1)%nat) /\
  (forall key, (length (snd (handleKeyDown props totalPages key)) <= 1)%nat) /\
  (forall x v : Q,
      (- (50) <= x <= 50)%Q -> (- (500) <= v <= 500)%Q ->
      onDragEnd props totalPages (Fin x) (Fin v) = []) /\
  (forall x v : Q,
      (x < - (50) \/ v < - (500))%Q ->
      onDragEnd props totalPages (Fin x) (Fin v) = goToNextPage props totalPages) /\
  (forall x v : Q,
      (- (50) <= x)%Q -> (- (500) <= v)%Q -> (50 < x \/ 500 < v)%Q ->
      onDragEnd props totalPages (Fin x) (Fin v) = goToPrevPage props).
Proof.
  assert (Hleft : forall x v : Q,
             lt (Fin x) (neg SWIPE_THRESHOLD) || lt (Fin v) (neg (of_Z 500)) = true
             <-> (x < - (50) \/ v < - (500))%Q).
  { intros x v. rewrite Bool.orb_true_iff.
    change (neg SWIPE_THRESHOLD) with (Fin (- (50))).
    change (neg (of_Z 500)) with (Fin (- (500))).
    now rewrite !lt_Fin. }
  assert (Hright : forall x v : Q,
             gt (Fin x) SWIPE_THRESHOLD || gt (Fin v) (of_Z 500) = true
             <-> (50 < x \/ 500 < v)%Q).
  { intros x v. rewrite Bool.orb_true_iff.
    change SWIPE_THRESHOLD with (Fin 50). change (of_Z 500) with (Fin 500).
    now rewrite !gt_Fin. }
  repeat split.
  - intros offset_x velocity_x. unfold onDragEnd.
    destruct (_ || _); [apply goToNextPage_one|].
    destruct (_ || _); [apply goToPrevPage_one|simpl; lia].
  - intros key. unfold handleKeyDown.
    destruct (_ || _); [apply goToNextPage_one|].
    destruct (_ || _); [apply goToPrevPage_one|simpl; lia].
  - intros x v [Hx1 Hx2] [Hv1 Hv2]. unfold onDragEnd.
    destruct (lt (Fin x) _ || _) eqn:E1.
    { apply Hleft in E1. destruct E1 as [E|E];
        [apply (Qlt_not_le _ _ E) in Hx1|apply (Qlt_not_le _ _ E) in Hv1]; contradiction. }
    destruct (gt (Fin x) _ || _) eqn:E2; [|reflexivity].
    apply Hright in E2. destruct E2 as [E|E];
      [apply (Qlt_not_le _ _ E) in Hx2|apply (Qlt_not_le _ _ E) in Hv2]; contradiction.
  - intros x v H. unfold onDragEnd. apply Hleft in H. now rewrite H.
  - intros x v Hx Hv H. unfold onDragEnd.
    destruct (lt (Fin x) _ || _) eqn:E1.
    { apply Hleft in E1. destruct E1 as [E|E];
        [apply (Qlt_not_le _ _ E) in Hx|apply (Qlt_not_le _ _ E) in Hv]; contradiction. }
    apply Hright in H. now rewrite H.
Qed.

Lemma one_intent_per_input_witness :
  onDragEnd Samples.Pages.firstPageNoPrev (of_Z 3) (Fin (- (60))) (Fin 0)
  = [PageChange (of_Z 1)].
Proof.
  rewrite (proj1 (proj2 (proj2 (proj2
             (one_intent_per_input Samples.Pages.firstPageNoPrev (of_Z 3)))))
             (- (60)) 0)%Q.
  - reflexivity.
  - left. reflexivity.
Defined.

(** X3.  A button is disabled exactly when its intent would call nothing,
    so a click on a button always does what a tap on the zone behind it
    does. *)
Theorem disabled_when_no_destination (props : Props) (totalPages : number) :
  (nextDisabled props totalPages = true <-> goToNextPage props totalPages = []) /\
  (prevDisabled props = true <-> goToPrevPage props = []) /\
  clickNext props totalPages = goToNextPage props totalPages /\
  clickPrev props = goToPrevPage props.
Proof.
  unfold clickNext, clickPrev, nextDisabled, prevDisabled, goToNextPage, goToPrevPage.
  destruct (lt _ _), (onNextChapter props), (gt _ _), (onPrevChapter props);
    simpl; repeat split; congruence.
Qed.

(** X4.  [usePageInfo] only ever reports a total: however often its
    effect runs, [current] stays 1, and [total] is 1 or what [PagedReader]
    computes as its page count from the same two widths, those of a run of
    the effect that found the container and its content. *)
Theorem usePageInfo_total (runs : list (option (Z * option Z))) :
  current (fold_left (fun pageInfo container => usePageInfo container pageInfo)
             runs initialPageInfo) = of_Z 1 /\
  (total (fold_left (fun pageInfo container => usePageInfo container pageInfo)
            runs initialPageInfo) = of_Z 1 \/
   exists containerWidth scrollWidth,
     In (Some (containerWidth, Some scrollWidth)) runs /\
     forall height,
       total (fold_left (fun pageInfo container => usePageInfo container pageInfo)
                runs initialPageInfo)
       = pageCount {| width := of_Z containerWidth; height := height |} scrollWidth).
Proof.
  induction runs as [|container runs [Hc Ht]] using rev_ind; [now split; [|left]|].
  rewrite fold_left_app. cbn [fold_left].
  assert (Hkeep :
            total (fold_left (fun pageInfo container => usePageInfo container pageInfo)
                     runs initialPageInfo) = of_Z 1 \/
            exists containerWidth scrollWidth,
              In (Some (containerWidth, Some scrollWidth)) (runs ++ [container]) /\
              forall height,
                total (fold_left (fun pageInfo container => usePageInfo container pageInfo)
                         runs initialPageInfo)
                = pageCount {| width := of_Z containerWidth; height := height |}
                    scrollWidth).
  { destruct Ht as [Ht|(cw & sw & Hin & Ht)]; [now left|].
    right. exists cw, sw. split; [apply in_or_app; now left|exact Ht]. }
  destruct container as [[containerWidth [scrollWidth|]]|]; cbn [usePageInfo];
    try (split; [exact Hc|exact Hkeep]).
  cbn [current total]. split; [exact Hc|].
  right. exists containerWidth, scrollWidth.
  split; [apply in_or_app; right; now left|reflexivity].
Qed.

End PagedReaderUIFacts.

(** ** More on the page computation *)
Module PaginationMore.
Import JS JSFacts JSOrder PagedReader Pagination.

Lemma calculatePages_calls (props : Props) (dims : LayoutDims) (S : Z)
    (totalPages : number) :
  snd (calculatePages props dims (Some S) totalPages)
  = (if strict_neq totalPages (pageCount dims S) && onTotalPagesChange props
     then [TotalPagesChange (pageCount dims S)] else [])
    ++ (if ge (currentPageIndex props) (pageCount dims S)
        then [PageChange (sub (pageCount dims S) (of_Z 1))] else []).
Proof.
  unfold calculatePages.
  destruct (strict_neq totalPages (pageCount dims S)), (onTotalPagesChange props);
    reflexivity.
Qed.

Lemma calculatePages_state (props : Props) (dims : LayoutDims) (S : Z)
    (totalPages : number) :
  fst (calculatePages props dims (Some S) totalPages)
  = if strict_neq totalPages (pageCount dims S) then pageCount dims S else totalPages.
Proof.
  unfold calculatePages.
  destruct (strict_neq totalPages (pageCount dims S)); reflexivity.
Qed.

(** X5.  With a positive viewport width the page count is an integer
    [P >= 1], and for an integer page index [i] a pass calls
    [onPageChange] exactly when [i >= P], with the index [P - 1], which
    lies in [0, P): once the parent has taken the clamped index, no pass
    clamps again. *)
Theorem clamp_lands_in_range (S : Z) (W h : Q) :
  (0 < W)%Q ->
  exists P : Z,
    pageCount {| width := Fin W; height := Fin h |} S = of_Z P /\
    (1 <= P)%Z /\
    forall (props : Props) (i : Z) (totalPages x : number),
      currentPageIndex props = of_Z i ->
      (In (PageChange x)
          (snd (calculatePages props {| width := Fin W; height := Fin h |}
                  (Some S) totalPages))
       <-> (P <= i)%Z /\ x = of_Z (P - 1) /\ (0 <= P - 1 < P)%Z).
Proof.
  intros HW. exists (Z.max 1 (Qceiling (inject_Z S / W))).
  split; [now apply pageCount_pos|]. split; [lia|].
  intros props i totalPages x Hi.
  rewrite calculatePages_calls, (pageCount_pos S W h HW), Hi, ge_of_Z, sub_of_Z.
  rewrite in_app_iff. split.
  - intros [H|H].
    + destruct (_ && _); [|destruct H]. destruct H as [H|[]]. discriminate H.
    + destruct (Z.leb_spec (Z.max 1 (Qceiling (inject_Z S / W))) i); [|destruct H].
      destruct H as [H|[]]. injection H as <-. repeat split; lia || reflexivity.
  - intros (Hle & -> & _). right.
    apply Z.leb_le in Hle. rewrite Hle. now left.
Qed.

Lemma clamp_lands_in_range_witness :
  (0 < 100)%Q /\
  In (PageChange (of_Z 2))
    (snd (calculatePages Samples.Pages.staleProps Samples.Pages.viewport100
            (Some 300) (of_Z 1))).
Proof.
  split; [reflexivity|].
  destruct (clamp_lands_in_range 300 100 600 eq_refl) as (P & HP & _ & Hcalls).
  assert (E : P = 3%Z).
  { change (pageCount {| width := Fin 100; height := Fin 600 |} 300) with (of_Z 3) in HP.
    injection HP as HP. lia. }
  subst P.
  apply (Hcalls Samples.Pages.staleProps 5%Z (of_Z 1) (of_Z 2) eq_refl).
  repeat split; lia || reflexivity.
Defined.

(** X6.  With a positive viewport width the page computation is
    idempotent on the page count: after a pass, [totalPages] equals the
    count measured, and a second pass on the same scroll width leaves
    [totalPages] as it is and does not call [onTotalPagesChange]; the
    callback is only ever called with the new count, when it differs from
    the one stored. *)
Theorem calculatePages_idempotent (props : Props) (S : Z) (W h : Q)
    (totalPages : number) :
  (0 < W)%Q ->
  let dims := {| width := Fin W; height := Fin h |} in
  let after := fst (calculatePages props dims (Some S) totalPages) in
  strict_eq after (pageCount dims S) = true /\
  fst (calculatePages props dims (Some S) after) = after /\
  (forall t, ~ In (TotalPagesChange t) (snd (calculatePages props dims (Some S) after))) /\
  (forall t, In (TotalPagesChange t) (snd (calculatePages props dims (Some S) totalPages)) ->
             t = pageCount dims S /\ strict_eq totalPages t = false /\
             onTotalPagesChange props = true).
Proof.
  intros HW dims after.
  assert (Hself : strict_eq (pageCount dims S) (pageCount dims S) = true).
  { apply strict_eq_refl. unfold dims. rewrite (pageCount_pos S W h HW). discriminate. }
  assert (Hafter : strict_eq after (pageCount dims S) = true).
  { unfold after. rewrite calculatePages_state. unfold strict_neq.
    destruct (strict_eq totalPages (pageCount dims S)) eqn:E; simpl; assumption. }
  assert (Hneq : strict_neq after (pageCount dims S) = false).
  { unfold strict_neq. now rewrite Hafter. }
  split; [exact Hafter|]. split; [|split].
  - rewrite calculatePages_state. now rewrite Hneq.
  - intros t. rewrite calculatePages_calls, Hneq. cbn [andb app].
    destruct (ge _ _); [|intros []]. intros [H|[]]. discriminate H.
  - intros t. rewrite calculatePages_calls, in_app_iff.
    unfold strict_neq. intros [H|H].
    + destruct (strict_eq totalPages (pageCount dims S)) eqn:E;
        destruct (onTotalPagesChange props); simpl in H; try contradiction.
      destruct H as [H|[]]. injection H as <-. now repeat split.
    + destruct (ge _ _); [|destruct H]. destruct H as [H|[]]. discriminate H.
Qed.

Lemma calculatePages_idempotent_witness :
  (0 < 100)%Q /\
  fst (calculatePages Samples.Pages.staleProps Samples.Pages.viewport100 (Some 300)
         (fst (calculatePages Samples.Pages.staleProps Samples.Pages.viewport100
                 (Some 300) (of_Z 1))))
  = fst (calculatePages Samples.Pages.staleProps Samples.Pages.viewport100
           (Some 300) (of_Z 1)).
Proof.
  split; [reflexivity|].
  exact (proj1 (proj2 (calculatePages_idempotent Samples.Pages.staleProps
                         300 100 600 (of_Z 1) eq_refl))).
Defined.

End PaginationMore.

(** ** More on the reading-time estimate *)
Module EstimateMore.
Import JS JSFacts JSOrder ReadingFooter.

Lemma floor_div_of_Z (m d : Z) :
  d <> 0%Z -> Math_floor (div (of_Z m) (of_Z d)) = Int (m / d).
Proof.
  intros Hd. unfold div, of_Z.
  destruct (Qeq_bool (inject_Z d) 0) eqn:E.
  { apply Qeq_bool_iff in E. unfold Qeq in E. simpl in E. lia. }
  cbn [Math_floor]. f_equal.
  rewrite (Qfloor_comp _ _ (Qred_correct _)). symmetry. apply Zdiv_Qdiv.
Qed.

Lemma formatTime_done (m : Z) :
  (m <= 0)%Z -> formatTime (Int m) = "Almost done"%string.
Proof.
  intros H. unfold formatTime. cbn [num]. rewrite le_of_Z.
  apply Z.leb_le in H. now rewrite H.
Qed.

(** X7.  [formatTime] on an integer number of minutes [m]: "Almost done"
    up to zero, the minutes below an hour, and from an hour on the hours
    [m / 60] followed by the minutes [m mod 60], which are left out when
    they are zero. *)
Theorem formatTime_integers (m : Z) :
  ((m <= 0)%Z -> formatTime (Int m) = "Almost done"%string) /\
  ((0 < m < 60)%Z ->
   formatTime (Int m) = "~" +:+ toString (Int m) +:+ " min left") /\
  ((60 <= m)%Z -> (m mod 60 = 0)%Z ->
   formatTime (Int m) = "~" +:+ toString (Int (m / 60)) +:+ "h left") /\
  ((60 <= m)%Z -> (m mod 60 <> 0)%Z ->
   formatTime (Int m)
   = "~" +:+ toString (Int (m / 60)) +:+ "h " +:+ toString (Int (m mod 60)) +:+ "m left").
Proof.
  assert (Hhours : (60 <= m)%Z ->
            formatTime (Int m)
            = if (m mod 60 =? 0)%Z
              then "~" +:+ toString (Int (m / 60)) +:+ "h left"
              else "~" +:+ toString (Int (m / 60)) +:+ "h "
                     +:+ toString (Int (m mod 60)) +:+ "m left").
  { intros H. unfold formatTime. cbn [num].
    rewrite le_of_Z, lt_of_Z.
    destruct (Z.leb_spec m 0); [lia|]. destruct (Z.ltb_spec m 60); [lia|].
    rewrite floor_div_of_Z by lia. cbn [rem]. change (60 =? 0)%Z with false. cbv iota.
    cbn [num]. rewrite strict_eq_of_Z, Z.rem_mod_nonneg by lia. reflexivity. }
  repeat split.
  - intros H. unfold formatTime. cbn [num]. rewrite le_of_Z.
    apply Z.leb_le in H. now rewrite H.
  - intros H. unfold formatTime. cbn [num]. rewrite le_of_Z, lt_of_Z.
    destruct (Z.leb_spec m 0); [lia|]. destruct (Z.ltb_spec m 60); [|lia]. reflexivity.
  - intros H H0. rewrite (Hhours H). apply Z.eqb_eq in H0. now rewrite H0.
  - intros H H0. rewrite (Hhours H). apply Z.eqb_neq in H0. now rewrite H0.
Qed.

Lemma formatTime_integers_witness :
  (60 <= 135)%Z /\ (135 mod 60 <> 0)%Z /\
  formatTime (Int 135) = "~2h 15m left"%string.
Proof.
  split; [lia|]. split; [discriminate|].
  exact (proj2 (proj2 (proj2 (formatTime_integers 135))) ltac:(lia) ltac:(discriminate)).
Defined.

(** The minutes left, for finite props and a page count that is not
    zero. *)
Lemma remainingMinutes_finite (c P W : Q) :
  ~ (P == 0)%Q ->
  remainingMinutes (Fin c) (Fin P) (Fin W)
  = Int (Qceiling ((P - c) * (W / P) / 238)).
Proof.
  intros HP. unfold remainingMinutes, div at 2.
  destruct (Qeq_bool P 0) eqn:E; [now apply Qeq_bool_iff in E|].
  unfold sub, neg, add, mul, AVERAGE_WPM, of_Z, div.
  change (Qeq_bool (inject_Z 238) 0) with false. cbv iota. cbn [Math_ceil].
  f_equal. apply Qceiling_comp. rewrite !Qred_correct. reflexivity.
Qed.




(** X9.  On the last page, or past it, of a positive number of pages the
    footer shows "Almost done", however many words the chapter has: a
    chapter of a single page never shows a time. *)
Theorem last_page_almost_done (currentPage totalPages totalWords : Q) :
  (0 < totalPages)%Q -> (totalPages <= currentPage)%Q -> (0 <= totalWords)%Q ->
  timeLeft (Fin currentPage) (Fin totalPages) (Fin totalWords) = "Almost done"%string.
Proof.
  intros HP Hc HW. unfold timeLeft. rewrite remainingMinutes_finite.
  2:{ intros E. rewrite E in HP. now apply Qlt_irrefl in HP. }
  apply formatTime_done.
  rewrite <- (Qceiling_Z 0). apply Qceiling_resp_le.
  assert (H1 : (totalPages - currentPage <= 0)%Q).
  { apply (Qplus_le_l _ _ currentPage). ring_simplify. exact Hc. }
  assert (H2 : (0 <= totalWords / totalPages)%Q).
  { apply Qle_shift_div_l; [exact HP|]. now rewrite Qmult_0_l. }
  assert (H3 : ((totalPages - currentPage) * (totalWords / totalPages) <= 0)%Q).
  { setoid_replace 0%Q with (0 * (totalWords / totalPages))%Q using relation Qeq by ring.
    now apply Qmult_le_compat_r. }
  apply Qle_shift_div_r; [reflexivity|]. now rewrite Qmult_0_l.
Qed.

Lemma last_page_almost_done_witness :
  (0 < 1)%Q /\ (1 <= 1)%Q /\ (0 <= 5000)%Q /\
  timeLeft (Fin 1) (Fin 1) (Fin 5000) = "Almost done"%string.
Proof.
  split; [reflexivity|]. split; [discriminate|]. split; [discriminate|].
  exact (last_page_almost_done 1 1 5000 eq_refl ltac:(discriminate) ltac:(discriminate)).
Defined.

End EstimateMore.

(** ** Words *)
Module WordsFacts.
Import JS JSFacts JSOrder Matcher MatcherSpec MatcherFacts PagedReaderUI.

Local Open Scope nat_scope.

Lemma splitSpaces_cons (inRun : bool) (s : list ascii) :
  exists w ws, splitSpaces inRun s = w :: ws.
Proof.
  revert inRun. induction s as [|c s IH]; intros inRun; simpl; [eauto|].
  destruct (is_space c).
  - destruct inRun; [apply IH|eauto].
  - destruct (splitSpaces false s); eauto.
Qed.

(** The pieces of [split(/\s+/)] that are not empty are the words. *)
Lemma filter_splitSpaces (inRun : bool) (s : list ascii) :
  List.filter (fun w => 0 <? length w) (splitSpaces inRun s) = tokens s.
Proof.
  set (f := fun w : list ascii => 0 <? length w).
  assert (Hcons : forall x l, List.filter f (x :: l)
                              = if f x then x :: List.filter f l else List.filter f l)
    by reflexivity.
  assert (Hnil : f [] = false) by reflexivity.
  assert (Hne : forall x w, f (x :: w) = true) by reflexivity.
  clearbody f.
  revert inRun. induction s as [|c s IH]; intros inRun.
  - cbn [splitSpaces tokens]. now rewrite Hcons, Hnil.
  - cbn [splitSpaces]. destruct (is_space c) eqn:Ec.
    + rewrite (tokens_cons_space c s Ec). destruct inRun; [apply IH|].
      rewrite Hcons, Hnil. apply IH.
    + specialize (IH false).
      destruct (splitSpaces_cons false s) as (w & ws & E). rewrite E in *.
      rewrite Hcons, Hne. rewrite Hcons in IH.
      destruct s as [|d s].
      { injection E as <- <-. cbn [tokens List.filter]. now rewrite Ec. }
      rewrite (tokens_cons_nonspace c d s Ec).
      cbn [splitSpaces] in E. destruct (is_space d) eqn:Ed.
      * injection E as <- <-. rewrite Hnil in IH. now rewrite IH.
      * destruct (splitSpaces_cons false s) as (w' & ws' & E'). rewrite E' in E.
        injection E as <- <-. rewrite Hne in IH. now rewrite <- IH.
Qed.

Lemma tokens_spaces (s : list ascii) :
  Forall (fun c => is_space c = true) s <-> tokens s = [].
Proof.
  split.
  - induction 1 as [|c s Hc Hs IH]; [reflexivity|]. now rewrite tokens_cons_space.
  - induction s as [|c s IH]; [constructor|].
    destruct (is_space c) eqn:Ec.
    + rewrite (tokens_cons_space c s Ec). intros H. constructor; auto.
    + intros H. now apply tokens_nonspace_head in H.
Qed.

(** X10.  The word count the footer gets is the number of words of the
    chapter, its maximal runs of code units that are not white space:
    leading, trailing and repeated white space count for nothing, a chapter
    of white space only has no word, and so has a missing chapter. *)
Theorem wordCount_words :
  (forall c : Chapter.t,
      Reader.wordCount (Some c) = length (tokens (Chapter.content c)) /\
      (Reader.wordCount (Some c) = 0
       <-> Forall (fun x => is_space x = true) (Chapter.content c))) /\
  Reader.wordCount None = 0.
Proof.
  split; [|reflexivity]. intros c. unfold Reader.wordCount.
  rewrite filter_splitSpaces. split; [reflexivity|].
  rewrite tokens_spaces. now destruct (tokens (Chapter.content c)).
Qed.

(** The pieces are the words and at most two empty pieces, one at each
    end. *)
Lemma splitSpaces_length (s : list ascii) :
  length (splitSpaces true s) <= length (tokens s) + 1 /\
  length (splitSpaces false s) <= length (tokens s) + 2 /\
  (forall c s', s = c :: s' -> is_space c = false ->
                length (splitSpaces false s) <= length (tokens s) + 1).
Proof.
  induction s as [|c s (IHt & IHf & IHh)].
  - simpl. repeat split; try lia; try discriminate.
  - destruct (is_space c) eqn:Ec.
    + rewrite (tokens_cons_space c s Ec). cbn [splitSpaces]. rewrite Ec.
      cbn [length]. repeat split; try lia. intros c' s' [= <- <-]. congruence.
    + assert (H : length (splitSpaces false (c :: s)) = length (splitSpaces false s)
                  /\ length (splitSpaces true (c :: s)) = length (splitSpaces false s)).
      { cbn [splitSpaces]. rewrite Ec.
        destruct (splitSpaces_cons false s) as (w & ws & ->). split; reflexivity. }
      destruct H as [-> ->].
      assert (Hgoal : length (splitSpaces false s) <= length (tokens (c :: s)) + 1).
      { destruct s as [|d s]; [simpl; rewrite Ec; simpl; lia|].
        rewrite (tokens_cons_nonspace c d s Ec). destruct (is_space d) eqn:Ed.
        - cbn [splitSpaces] in *. rewrite Ed in *. cbn [length] in *.
          rewrite (tokens_cons_space d s Ed) in *. lia.
        - specialize (IHh d s eq_refl Ed).
          pose proof (tokens_nonspace_head d s Ed) as Hne.
          destruct (tokens (d :: s)); [contradiction|]. cbn [length] in *. lia. }
      repeat split; try lia.
Qed.

Lemma ceil_div_of_Z (a d : Z) :
  d <> 0%Z -> Math_ceil (div (of_Z a) (of_Z d)) = Int (- (- a / d))%Z.
Proof.
  intros Hd. unfold div, of_Z.
  destruct (Qeq_bool (inject_Z d) 0) eqn:E.
  { apply Qeq_bool_iff in E. unfold Qeq in E. simpl in E. lia. }
  cbn [Math_ceil]. f_equal. unfold Qceiling. f_equal.
  rewrite Zdiv_Qdiv. apply Qfloor_comp. rewrite Qred_correct, inject_Z_opp.
  field. unfold Qeq. simpl. lia.
Qed.

(** X11.  The minutes shown inside the reader count the pieces of
    [content.split(/\s+/)] without dropping the empty ones: the words and up
    to two more, at 200 per minute, rounded up; they are at least 1, also
    for an empty chapter. *)
Theorem footerMinutes_at_least_one (content : list ascii) :
  exists pieces : nat,
    length (splitSpaces false content) = pieces /\
    length (tokens content) <= pieces <= length (tokens content) + 2 /\
    footerMinutes content = Int (- (- Z.of_nat pieces / 200))%Z /\
    (1 <= - (- Z.of_nat pieces / 200))%Z.
Proof.
  exists (length (splitSpaces false content)). split; [reflexivity|].
  assert (Hlo : length (tokens content) <= length (splitSpaces false content)).
  { rewrite <- (filter_splitSpaces false content). apply filter_length_le. }
  destruct (splitSpaces_length content) as (_ & Hhi & _).
  split; [lia|]. split.
  - unfold footerMinutes. now rewrite ceil_div_of_Z.
  - destruct (splitSpaces_cons false content) as (w & ws & ->). cbn [length].
    assert (H : (- Z.of_nat (S (length ws)) / 200 < 0)%Z).
    { apply Z.div_lt_upper_bound; lia. }
    lia.
Qed.

End WordsFacts.

(** ** The footer of Reader *)
Module FooterFacts.
Import JS JSFacts ReadingFooter Matcher MatcherSpec.



End FooterFacts.

(** ** Chapters *)
Module ReaderFacts.
Import JS JSFacts JSOrder PagedReader Reader ReaderSpec.

(** The comparator of the sort puts [a] after [b] exactly when [a <= b]
    fails, for orders that are not NaN. *)
Lemma comparator_le (a b : number) :
  a <> NaN -> b <> NaN -> gt (sub a b) (of_Z 0) = negb (le a b).
Proof.
  destruct a as [x| | |], b as [y| | |]; try congruence; intros _ _; try reflexivity.
  unfold sub, neg, add, of_Z.
  destruct (le (Fin x) (Fin y)) eqn:E; simpl negb.
  - apply le_Fin in E. apply gt_Fin_false. rewrite !Qred_correct.
    apply (Qplus_le_l _ _ y). ring_simplify. exact E.
  - apply gt_Fin. rewrite !Qred_correct.
    apply (Qplus_lt_l _ _ y). ring_simplify.
    apply Qnot_le_lt. intros H. apply le_Fin in H. congruence.
Qed.

Lemma le_trans (a b c : number) : le a b = true -> le b c = true -> le a c = true.
Proof.
  destruct a as [x| | |], b as [y| | |], c as [z| | |]; try discriminate; try reflexivity.
  rewrite !le_Fin. apply Qle_trans.
Qed.

Lemma le_total (a b : number) : a <> NaN -> b <> NaN -> le a b = false -> le b a = true.
Proof.
  destruct a as [x| | |], b as [y| | |]; try congruence; intros _ _; try discriminate;
    try reflexivity.
  intros H. apply le_Fin. apply Qlt_le_weak, Qnot_le_lt.
  intros Hle. apply le_Fin in Hle. congruence.
Qed.

Lemma insertChapter_Permutation (c : Chapter.t) (sorted : list Chapter.t) :
  Permutation (c :: sorted) (insertChapter c sorted).
Proof.
  induction sorted as [|c' rest IH]; simpl; [reflexivity|].
  destruct (gt _ _); [|reflexivity].
  rewrite perm_swap. now constructor.
Qed.

Lemma sortedChapters_Permutation (chapters : list Chapter.t) :
  Permutation chapters (sortedChapters chapters).
Proof.
  induction chapters as [|c rest IH]; simpl; [reflexivity|].
  rewrite <- insertChapter_Permutation. now constructor.
Qed.

Lemma insertChapter_inOrder (c : Chapter.t) (sorted : list Chapter.t) :
  Chapter.order c <> NaN -> Forall (fun c' => Chapter.order c' <> NaN) sorted ->
  inOrder sorted -> inOrder (insertChapter c sorted).
Proof.
  intros Hc. induction sorted as [|c' rest IH]; intros Hall Hsorted; simpl.
  - split; [constructor|exact I].
  - inversion Hall as [|? ? Hc' Hrest]; subst. destruct Hsorted as [Hle Hsorted].
    rewrite (comparator_le _ _ Hc Hc').
    destruct (le (Chapter.order c) (Chapter.order c')) eqn:E; simpl negb; cbv iota.
    + simpl. repeat split; try assumption. constructor; [exact E|].
      rewrite List.Forall_forall in Hle. apply List.Forall_forall.
      intros r Hr. apply (le_trans _ _ _ E). now apply Hle.
    + simpl. split; [|now apply IH].
      apply List.Forall_forall. intros r Hr.
      apply (Permutation_in _ (Permutation_sym (insertChapter_Permutation c rest))) in Hr.
      destruct Hr as [<-|Hr].
      * now apply le_total.
      * rewrite List.Forall_forall in Hle. now apply Hle.
Qed.

(** X13.  The chapters [Reader] walks through are the chapters of the
    book, each once, and in ascending order of [order] when no order is
    NaN. *)
Theorem sortedChapters_sorted (chapters : list Chapter.t) :
  Permutation chapters (sortedChapters chapters) /\
  (Forall (fun c => Chapter.order c <> NaN) chapters ->
   inOrder (sortedChapters chapters)).
Proof.
  split; [apply sortedChapters_Permutation|].
  induction 1 as [|c rest Hc Hrest IH]; simpl; [exact I|].
  apply insertChapter_inOrder; [exact Hc| |exact IH].
  apply List.Forall_forall. intros r Hr.
  apply (Permutation_in _ (Permutation_sym (sortedChapters_Permutation rest))) in Hr.
  rewrite List.Forall_forall in Hrest. now apply Hrest.
Qed.

Lemma sortedChapters_sorted_witness :
  Forall (fun c => Chapter.order c <> NaN) MoreSamples.threeChapters /\
  inOrder (sortedChapters MoreSamples.threeChapters) /\
  map Chapter.id (sortedChapters MoreSamples.threeChapters) = ["c1"; "c2"; "c3"]%string.
Proof.
  assert (H : Forall (fun c => Chapter.order c <> NaN) MoreSamples.threeChapters)
    by (repeat constructor; discriminate).
  split; [exact H|]. split; [|reflexivity].
  exact (proj2 (sortedChapters_sorted MoreSamples.threeChapters) H).
Defined.

(** *** The current chapter and its neighbours *)

Lemma findIndexFrom_spec (currentChapterId : string) (sorted : list Chapter.t) (i : Z) :
  (0 <= i)%Z ->
  (find currentChapterId sorted = None /\
   findIndexFrom i currentChapterId sorted = (-1)%Z) \/
  (exists c, find currentChapterId sorted = Some c /\
             Chapter.id c = currentChapterId /\
             (i <= findIndexFrom i currentChapterId sorted
              < i + Z.of_nat (length sorted))%Z /\
             nth_error sorted (Z.to_nat (findIndexFrom i currentChapterId sorted - i))
             = Some c).
Proof.
  revert i. induction sorted as [|c rest IH]; intros i Hi; simpl; [now left|].
  destruct (String.eqb (Chapter.id c) currentChapterId) eqn:E.
  - right. exists c. apply String.eqb_eq in E.
    rewrite Z.sub_diag. repeat split; try assumption; lia.
  - destruct (IH (i + 1)%Z ltac:(lia)) as [[Hnone Hidx]|(c' & Hfind & Hid & Hrange & Hnth)].
    + left. now split.
    + right. exists c'. repeat split; try assumption; try lia.
      replace (Z.to_nat (findIndexFrom (i + 1) currentChapterId rest - i))
        with (S (Z.to_nat (findIndexFrom (i + 1) currentChapterId rest - (i + 1))))
        by lia.
      exact Hnth.
Qed.

Lemma findIndex_spec (currentChapterId : string) (sorted : list Chapter.t) :
  (find currentChapterId sorted = None /\
   findIndex currentChapterId sorted = (-1)%Z) \/
  (exists c, find currentChapterId sorted = Some c /\
             Chapter.id c = currentChapterId /\
             (0 <= findIndex currentChapterId sorted < Z.of_nat (length sorted))%Z /\
             nth_error sorted (Z.to_nat (findIndex currentChapterId sorted)) = Some c).
Proof.
  unfold findIndex.
  destruct (findIndexFrom_spec currentChapterId sorted 0 ltac:(lia))
    as [H|(c & Hfind & Hid & Hrange & Hnth)]; [now left|].
  right. exists c. rewrite Z.sub_0_r in Hnth. repeat split; try assumption; lia.
Qed.

(** X14.  The current chapter is the chapter at the current index, and
    the index is -1 exactly when the id is unknown; the chapter callbacks
    handed to [PagedReader] never read past the chapters: a callback that is
    given selects the chapter right after, or right before, the current one
    in the sorted order, a chapter of the book; when the id is unknown there
    is no [PagedReader] and no callback. *)
Theorem chapter_neighbours (chapters : list Chapter.t) (currentChapterId : string) :
  let sorted := sortedChapters chapters in
  let index := findIndex currentChapterId sorted in
  find currentChapterId sorted = chapterAt sorted index /\
  (find currentChapterId sorted = None <-> index = (-1)%Z) /\
  (onNextChapter chapters currentChapterId = NoCollaborator \/
   exists c, onNextChapter chapters currentChapterId = ChapterSelect (Chapter.id c) /\
             chapterAt sorted (index + 1) = Some c /\ In c chapters) /\
  (onPrevChapter chapters currentChapterId = NoCollaborator \/
   exists c, onPrevChapter chapters currentChapterId = ChapterSelect (Chapter.id c) /\
             chapterAt sorted (index - 1) = Some c /\ In c chapters) /\
  (index = (-1)%Z ->
   (forall currentPageIndex,
       pagedReaderProps chapters currentChapterId currentPageIndex = None) /\
   onNextChapter chapters currentChapterId = NoCollaborator /\
   onPrevChapter chapters currentChapterId = NoCollaborator).
Proof.
  intros sorted index.
  assert (Hat : forall i, (0 <= i < Z.of_nat (length sorted))%Z ->
                 exists c, chapterAt sorted i = Some c /\ In c chapters).
  { intros i Hi. unfold chapterAt. destruct (Z.ltb_spec i 0); [lia|].
    destruct (nth_error sorted (Z.to_nat i)) as [c|] eqn:E.
    - exists c. split; [reflexivity|]. apply nth_error_In in E.
      apply (Permutation_in _ (Permutation_sym (sortedChapters_Permutation chapters))).
      exact E.
    - apply nth_error_None in E. lia. }
  assert (Hnext : onNextChapter chapters currentChapterId = NoCollaborator \/
                  exists c, onNextChapter chapters currentChapterId
                            = ChapterSelect (Chapter.id c) /\
                            chapterAt sorted (index + 1) = Some c /\ In c chapters).
  { unfold onNextChapter. fold sorted. fold index. unfold hasNext.
    destruct (Z.ltb_spec (-1) index); [|now left].
    destruct (Z.ltb_spec index (Z.of_nat (length sorted) - 1)); [|now left].
    right. cbn [andb]. destruct (Hat (index + 1)%Z ltac:(lia)) as (c & Hc & Hin).
    exists c. unfold selectAt. now rewrite Hc. }
  assert (Hprev : onPrevChapter chapters currentChapterId = NoCollaborator \/
                  exists c, onPrevChapter chapters currentChapterId
                            = ChapterSelect (Chapter.id c) /\
                            chapterAt sorted (index - 1) = Some c /\ In c chapters).
  { unfold onPrevChapter. fold sorted. fold index. unfold hasPrev.
    destruct (Z.ltb_spec 0 index); [|now left].
    right.
    assert (Hlt : (index < Z.of_nat (length sorted))%Z).
    { destruct (findIndex_spec currentChapterId sorted)
        as [[_ Hidx]|(c & _ & _ & Hrange & _)]; [change (index = (-1)%Z) in Hidx; lia|].
      exact (proj2 Hrange). }
    destruct (Hat (index - 1)%Z ltac:(lia)) as (c & Hc & Hin).
    exists c. unfold selectAt. now rewrite Hc. }
  destruct (findIndex_spec currentChapterId sorted)
    as [[Hnone Hidx]|(c & Hfind & Hid & Hrange & Hnth)].
  - change (index = (-1)%Z) in Hidx.
    split; [now rewrite Hnone, Hidx|]. split; [tauto|].
    split; [exact Hnext|]. split; [exact Hprev|]. intros _.
    split; [|split].
    + intros currentPageIndex. unfold pagedReaderProps. fold sorted. now rewrite Hnone.
    + unfold onNextChapter. fold sorted. fold index. now rewrite Hidx.
    + unfold onPrevChapter. fold sorted. fold index. now rewrite Hidx.
  - change (0 <= index < Z.of_nat (length sorted))%Z in Hrange.
    change (nth_error sorted (Z.to_nat index) = Some c) in Hnth.
    split.
    { rewrite Hfind. unfold chapterAt. destruct (Z.ltb_spec index 0); [lia|].
      now rewrite Hnth. }
    split; [split; [congruence|lia]|].
    split; [exact Hnext|]. split; [exact Hprev|]. lia.
Qed.

Lemma chapter_neighbours_witness :
  findIndex "zz" (sortedChapters MoreSamples.threeChapters) = (-1)%Z /\
  (forall currentPageIndex,
      pagedReaderProps MoreSamples.threeChapters "zz" currentPageIndex = None) /\
  onNextChapter MoreSamples.threeChapters "zz" = NoCollaborator /\
  onPrevChapter MoreSamples.threeChapters "zz" = NoCollaborator.
Proof.
  split; [reflexivity|].
  exact (proj2 (proj2 (proj2 (proj2
           (chapter_neighbours MoreSamples.threeChapters "zz")))) eq_refl).
Defined.




(** A chapter is found exactly when some chapter has the id. *)
Lemma find_In (id : string) (chapters : list Chapter.t) :
  find id chapters <> None <-> exists c, In c chapters /\ Chapter.id c = id.
Proof.
  induction chapters as [|c rest IH]; simpl.
  - split; [congruence|intros (c & [] & _)].
  - destruct (String.eqb (Chapter.id c) id) eqn:E.
    + split; [|discriminate]. intros _. exists c. apply String.eqb_eq in E. auto.
    + rewrite IH. apply String.eqb_neq in E.
      split; intros (c' & Hin & Hid); exists c'.
      * auto.
      * destruct Hin as [<-|Hin]; [contradiction|auto].
Qed.

End ReaderFacts.

(** ** The store: opening a book *)
Module StoreFacts.
Import JS BookStore BookStoreActions.

Lemma chapterExists_find (id : string) (chapters : list Chapter.t) :
  chapterExists id chapters = true
  <-> Reader.find id (Reader.sortedChapters chapters) <> None.
Proof.
  rewrite ReaderFacts.find_In. unfold chapterExists. rewrite existsb_exists.
  split; intros (c & Hin & Hid); exists c.
  - apply String.eqb_eq in Hid. split; [|exact Hid].
    apply (Permutation_in _ (ReaderFacts.sortedChapters_Permutation chapters)), Hin.
  - split; [|now apply String.eqb_eq].
    apply (Permutation_in _
             (Permutation_sym (ReaderFacts.sortedChapters_Permutation chapters))), Hin.
Qed.

(** X16.  Opening a book that has chapters always leaves the store on a
    chapter of that book, so [Reader] finds its current chapter: the chapter
    and page of the saved progress when that chapter still exists, and the
    first chapter as stored, page 0, otherwise. *)
Theorem setBook_opens_a_chapter (b : Book) (st : BookState)
    (first : Chapter.t) (rest : list Chapter.t) :
  chaptersOf b = Some (first :: rest) ->
  exists st',
    setBook (Some b) st = Some st' /\
    book st' = Some b /\
    Reader.find (currentChapterId st') (Reader.sortedChapters (first :: rest)) <> None /\
    (forall p, b !! "readingProgress" = Some (VProgress p) ->
               chapterExists (ReadingProgress.chapterId p) (first :: rest) = true ->
               currentChapterId st' = ReadingProgress.chapterId p /\
               currentPageIndex st' = ReadingProgress.pageIndex p) /\
    ((forall p, b !! "readingProgress" = Some (VProgress p) ->
                chapterExists (ReadingProgress.chapterId p) (first :: rest) = false) ->
     currentChapterId st' = Chapter.id first /\ currentPageIndex st' = of_Z 0).
Proof.
  intros Hch. unfold setBook. rewrite Hch.
  assert (Hfirst : Reader.find (Chapter.id first) (Reader.sortedChapters (first :: rest))
                   <> None).
  { apply chapterExists_find. simpl. now rewrite String.eqb_refl. }
  destruct (b !! "readingProgress") as [[| | | |p]|] eqn:Ep;
    try (eexists; split; [reflexivity|]; split; [reflexivity|]; split; [exact Hfirst|];
         split; [intros ? [=]|intros _; now split]).
  destruct (chapterExists (ReadingProgress.chapterId p) (first :: rest)) eqn:Ex;
    eexists; (split; [reflexivity|]); (split; [reflexivity|]).
  - split; [now apply chapterExists_find|]. split.
    + intros p' [= <-] _. now split.
    + intros H. specialize (H p eq_refl). congruence.
  - split; [exact Hfirst|]. split.
    + intros p' [= <-] H. congruence.
    + intros _. now split.
Qed.

Lemma setBook_opens_a_chapter_witness :
  exists st',
    setBook (Some MoreSamples.library) MoreSamples.reading = Some st' /\
    currentChapterId st' = "c3"%string /\ currentPageIndex st' = of_Z 0.
Proof.
  assert (Hch : chaptersOf MoreSamples.library = Some MoreSamples.threeChapters)
    by reflexivity.
  destruct (setBook_opens_a_chapter MoreSamples.library MoreSamples.reading _ _ Hch)
    as (st' & Hset & _ & _ & _ & Hdefault).
  exists st'. split; [exact Hset|]. apply Hdefault. intros p Hp.
  vm_compute in Hp. discriminate Hp.
Defined.

(** *** The selector and Reader *)

Lemma find_Some (id : string) (chapters : list Chapter.t) (c : Chapter.t) :
  Reader.find id chapters = Some c -> In c chapters /\ Chapter.id c = id.
Proof.
  induction chapters as [|c' rest IH]; simpl; [discriminate|].
  destruct (String.eqb (Chapter.id c') id) eqn:E.
  - intros [= <-]. apply String.eqb_eq in E. auto.
  - intros H. destruct (IH H). auto.
Qed.

Lemma same_id_same_chapter (chapters : list Chapter.t) (c c' : Chapter.t) :
  List.NoDup (map Chapter.id chapters) ->
  In c chapters -> In c' chapters -> Chapter.id c = Chapter.id c' -> c = c'.
Proof.
  induction chapters as [|x rest IH]; simpl; [intros _ []|].
  intros Hnd Hc Hc' Hid. inversion Hnd as [|? ? Hx Hrest]; subst.
  destruct Hc as [<-|Hc], Hc' as [<-|Hc']; auto.
  - exfalso. apply Hx. rewrite Hid. now apply in_map.
  - exfalso. apply Hx. rewrite <- Hid. now apply in_map.
Qed.

(** X17.  When the chapters of the book have distinct ids, the selector
    [useCurrentChapter], which looks among the chapters as stored, and
    [Reader], which looks among the sorted chapters, find the same current
    chapter, or both find none. *)
Theorem selector_agrees_with_Reader (state : BookState) (b : Book)
    (chapters : list Chapter.t) :
  book state = Some b ->
  chaptersOf b = Some chapters ->
  List.NoDup (map Chapter.id chapters) ->
  Selectors.useCurrentChapter state
  = Some (Reader.find (currentChapterId state) (Reader.sortedChapters chapters)).
Proof.
  intros Hb Hch Hnd. unfold Selectors.useCurrentChapter. rewrite Hb, Hch. f_equal.
  pose proof (ReaderFacts.sortedChapters_Permutation chapters) as Hperm.
  destruct (Reader.find (currentChapterId state) chapters) as [c|] eqn:E.
  - destruct (find_Some _ _ _ E) as [Hin Hid].
    destruct (Reader.find (currentChapterId state) (Reader.sortedChapters chapters))
      as [c'|] eqn:E'.
    + destruct (find_Some _ _ _ E') as [Hin' Hid'].
      apply (Permutation_in _ (Permutation_sym Hperm)) in Hin'.
      f_equal. apply (same_id_same_chapter chapters); congruence.
    + exfalso. revert E'. apply ReaderFacts.find_In. exists c.
      split; [now apply (Permutation_in _ Hperm)|exact Hid].
  - destruct (Reader.find (currentChapterId state) (Reader.sortedChapters chapters))
      as [c'|] eqn:E'; [|reflexivity].
    destruct (find_Some _ _ _ E') as [Hin' Hid'].
    exfalso. revert E. apply ReaderFacts.find_In. exists c'.
    split; [now apply (Permutation_in _ (Permutation_sym Hperm))|exact Hid'].
Qed.

Lemma selector_agrees_with_Reader_witness :
  List.NoDup (map Chapter.id MoreSamples.threeChapters) /\
  Selectors.useCurrentChapter MoreSamples.reading
  = Some (Reader.find "c2" (Reader.sortedChapters MoreSamples.threeChapters)).
Proof.
  assert (H : List.NoDup (map Chapter.id MoreSamples.threeChapters)).
  { repeat constructor; simpl; intuition discriminate. }
  split; [exact H|].
  exact (selector_agrees_with_Reader MoreSamples.reading MoreSamples.library
           MoreSamples.threeChapters eq_refl eq_refl H).
Defined.

Section RoundTrip.

Variable db : Type.
Variable saveBook : Book -> db -> option db.

(** X18.  The progress saved is the progress restored: the book
    [saveReadingProgress] hands to [saveBook], opened again with [setBook],
    puts the store back on the chapter and the page it was on when the
    progress was saved, whatever the store holds by then, provided the
    chapter is one of the book's. *)
Theorem progress_round_trip (now : number) (st resumed later : BookState) (d : db)
    (b : Book) (chapters : list Chapter.t) :
  book st = Some b ->
  chaptersOf b = Some chapters ->
  chapterExists (currentChapterId st) chapters = true ->
  exists updatedBook,
    snd (saveReadingProgress db saveBook now st d resumed) = Some updatedBook /\
    setBook (Some updatedBook) later
    = Some {| book := Some updatedBook;
              currentChapterId := currentChapterId st;
              currentPageIndex := currentPageIndex st |}.
Proof.
  intros Hb Hch Hex. unfold saveReadingProgress. rewrite Hb.
  set (progress := {| ReadingProgress.chapterId := currentChapterId st;
                      ReadingProgress.pageIndex := currentPageIndex st;
                      ReadingProgress.lastRead := now |}).
  set (updatedBook := <["readingProgress" := VProgress progress]> b).
  exists updatedBook. split; [now destruct (saveBook updatedBook d)|].
  unfold setBook, chaptersOf.
  assert (Hc : updatedBook !! "chapters" = b !! "chapters")
    by (apply lookup_insert_ne; discriminate).
  assert (Hp : updatedBook !! "readingProgress" = Some (VProgress progress))
    by apply lookup_insert_eq.
  rewrite Hc. unfold chaptersOf in Hch.
  destruct (b !! "chapters") as [[| |chapters'| |]|]; try discriminate.
  injection Hch as ->.
  destruct chapters as [|first rest]; [discriminate|].
  rewrite Hp. cbn [ReadingProgress.chapterId ReadingProgress.pageIndex progress].
  now rewrite Hex.
Qed.

End RoundTrip.

Lemma progress_round_trip_witness :
  exists updatedBook,
    snd (saveReadingProgress unit MoreSamples.forget (of_Z 1700000000000)
           MoreSamples.reading tt MoreSamples.reading) = Some updatedBook /\
    setBook (Some updatedBook) (clearBook MoreSamples.reading)
    = Some {| book := Some updatedBook;
              currentChapterId := "c2";
              currentPageIndex := of_Z 4 |}.
Proof.
  exact (progress_round_trip unit MoreSamples.forget (of_Z 1700000000000)
           MoreSamples.reading MoreSamples.reading (clearBook MoreSamples.reading) tt
           MoreSamples.library MoreSamples.threeChapters eq_refl eq_refl eq_refl).
Defined.

End StoreFacts.

(** ** Selecting text and adding a highlight *)
Module HighlightFacts.
Import JS Matcher MatcherSpec MatcherFacts Reader ReaderSpec.

Local Open Scope nat_scope.

(** *** Trimming *)

Lemma trimEnd_idempotent (s : list ascii) : trimEnd (trimEnd s) = trimEnd s.
Proof.
  induction s as [|c s IH]; [reflexivity|].
  cbn [trimEnd]. destruct (trimEnd s) as [|x kept] eqn:E.
  - destruct (is_space c) eqn:Ec; [reflexivity|]. simpl. now rewrite Ec.
  - apply trimEnd_cons_nonempty, IH.
Qed.

Lemma trim_idempotent (s : list ascii) : trim (trim s) = trim s.
Proof.
  unfold trim. destruct (trimStart s) as [|c s'] eqn:E; [reflexivity|].
  pose proof (trimStart_head _ _ _ E) as Hc.
  rewrite (trimEnd_nonspace_head c s' Hc). cbn [trimStart]. rewrite Hc.
  rewrite <- (trimEnd_nonspace_head c s' Hc). apply trimEnd_idempotent.
Qed.

Lemma handleSelection_trimmed (selection : option Selection)
    (selectedText : option SelectedText) :
  trimmed selectedText -> trimmed (handleSelection selection selectedText).
Proof.
  intros H. unfold handleSelection. destruct selection as [s|]; [|exact I].
  destruct (isCollapsed s); [exact I|].
  destruct (0 <? length (trim (selected s))) eqn:E; [|exact H].
  cbn [trimmed text]. split; [apply trim_idempotent|].
  unfold blank. rewrite trim_idempotent. apply Nat.ltb_lt in E.
  destruct (trim (selected s)); [simpl in E; lia|reflexivity].
Qed.

(** X19.  Whatever the user selects, and however often, the selection
    [Reader] holds is never blank and has no white space at its ends, so a
    highlight is never made of white space: a selection of white space only
    leaves the previous one in place, and no selection or a collapsed one
    clears it. *)
Theorem selection_stays_trimmed (events : list (option Selection)) :
  trimmed
    (fold_left (fun selectedText selection => handleSelection selection selectedText)
       events None).
Proof.
  assert (H : forall start, trimmed start ->
               trimmed (fold_left (fun selectedText selection =>
                                     handleSelection selection selectedText)
                          events start)).
  { induction events as [|selection events IH]; intros start Hs; [exact Hs|].
    simpl. apply IH. now apply handleSelection_trimmed. }
  apply H. exact I.
Qed.

(** *** Adding a highlight *)

Section Persistence.

Variable db : Type.
Variable saveBook : Book -> db -> option db.

(** X20.  A book handed to [onBookUpdate] by [handleAddHighlight] has been
    saved, and it is the book of [Reader] with one more highlight: the new
    highlight, made of the selected text for the current chapter, comes
    last, the highlights there were are kept in their order, and every
    other property of the book is untouched.  The highlights of the current
    chapter gain the new one at their end, and those of every other chapter
    are the same.  The selection is then cleared. *)
Theorem handleAddHighlight_appends (uuid : string) (now : number) (b : Book)
    (currentChapterId : string) (onBookUpdate : bool) (marking marking' : Marking)
    (d d' : db) (outcome : BookStore.settled) (updates : list Book)
    (updatedBook : Book) :
  handleAddHighlight db saveBook uuid now b currentChapterId onBookUpdate marking d
  = Some (marking', d', outcome, updates) ->
  In updatedBook updates ->
  exists (selection : SelectedText) (highlights : list Highlight.t),
    let newHighlight :=
      {| Highlight.id := uuid;
         Highlight.chapterId := currentChapterId;
         Highlight.text := text selection;
         Highlight.note := "";
         Highlight.color := "yellow";
         Highlight.created := now |} in
    selectedText marking = Some selection /\
    highlightsOf b = Some highlights /\
    updates = [updatedBook] /\
    saveBook updatedBook d = Some d' /\
    outcome = BookStore.Resolved /\
    highlightsOf updatedBook = Some (highlights ++ [newHighlight]) /\
    (forall key : string, key <> "highlights"%string -> updatedBook !! key = b !! key) /\
    chapterHighlights updatedBook currentChapterId
    = option_map (fun own => own ++ [newHighlight]) (chapterHighlights b currentChapterId) /\
    (forall other : string,
        other <> currentChapterId ->
        chapterHighlights updatedBook other = chapterHighlights b other) /\
    marking' = {| selectedText := None; activeHighlightId := Some uuid |}.
Proof.
  unfold handleAddHighlight.
  destruct (selectedText marking) as [selection|]; [|intros [= <- <- <- <-] []].
  destruct (highlightsOf b) as [highlights|] eqn:Eh; [|discriminate].
  set (newHighlight := {| Highlight.id := uuid;
                          Highlight.chapterId := currentChapterId;
                          Highlight.text := text selection;
                          Highlight.note := "";
                          Highlight.color := "yellow";
                          Highlight.created := now |}).
  set (saved := <["highlights" := VHighlights (highlights ++ [newHighlight])]> b).
  destruct (saveBook saved d) as [d2|] eqn:Es; [|intros [= <- <- <- <-] []].
  intros [= <- <- <- <-] Hin.
  destruct onBookUpdate; [|destruct Hin]. destruct Hin as [<-|[]].
  exists selection, highlights. cbn zeta. fold newHighlight.
  assert (Hnew : highlightsOf saved = Some (highlights ++ [newHighlight])).
  { unfold highlightsOf, saved. now rewrite lookup_insert_eq. }
  repeat (split; [first [reflexivity|assumption]|]).
  split; [|split; [|split]].
  - intros key Hkey. apply lookup_insert_ne. congruence.
  - unfold chapterHighlights. rewrite Hnew, Eh. cbn [option_map].
    rewrite List.filter_app. cbn [List.filter Highlight.chapterId newHighlight].
    now rewrite String.eqb_refl.
  - intros other Hother. unfold chapterHighlights. rewrite Hnew, Eh. cbn [option_map].
    rewrite List.filter_app. cbn [List.filter Highlight.chapterId newHighlight].
    apply String.eqb_neq in Hother. rewrite String.eqb_sym in Hother.
    rewrite Hother. now rewrite app_nil_r.
  - reflexivity.
Qed.

End Persistence.

Lemma handleAddHighlight_appends_witness :
  exists updatedBook,
    handleAddHighlight unit MoreSamples.forget "h1" (of_Z 7) MoreSamples.library "c1"
      true MoreSamples.selecting tt
    = Some ({| selectedText := None; activeHighlightId := Some "h1"%string |},
            tt, BookStore.Resolved, [updatedBook]) /\
    chapterHighlights updatedBook "c1"
    = Some [MoreSamples.mark "h0" "c1" "upon";
            {| Highlight.id := "h1";
               Highlight.chapterId := "c1";
               Highlight.text := list_ascii_of_string "time";
               Highlight.note := "";
               Highlight.color := "yellow";
               Highlight.created := of_Z 7 |}] /\
    chapterHighlights updatedBook "c2" = Some [] /\
    updatedBook !! "title"%string = Some (VString "Tales").
Proof.
  eexists. split; [reflexivity|].
  destruct (handleAddHighlight_appends unit MoreSamples.forget "h1" (of_Z 7)
              MoreSamples.library "c1" true MoreSamples.selecting _ tt _ _ _ _
              eq_refl (or_introl eq_refl))
    as (selection & highlights & Hsel & _ & _ & _ & _ & _ & Hframe & Hown & Hother & _).
  injection Hsel as <-.
  split; [exact Hown|]. split.
  - rewrite Hother by discriminate. reflexivity.
  - rewrite Hframe by discriminate. reflexivity.
Defined.

(** *** A highlight is found where its text stands *)

Lemma same_text_refl (u : list ascii) : same_text u u.
Proof.
  induction u as [|c u IH]; constructor; [|exact IH].
  unfold same_char. apply Ascii.eqb_refl.
Qed.

Lemma occurrence_nonempty (ws : list (list ascii)) (m : list ascii) :
  occurrence ws m -> ws <> [].
Proof. destruct 1; discriminate. Qed.

Lemma occurrence_cons (c : ascii) (w : list ascii) (ws : list (list ascii))
    (m : list ascii) :
  occurrence (w :: ws) m -> occurrence ((c :: w) :: ws) (c :: m).
Proof.
  assert (Hc : same_char c c = true) by (unfold same_char; apply Ascii.eqb_refl).
  inversion 1; subst.
  - apply occ_last. now constructor.
  - change (c :: u ++ gap ++ rest) with ((c :: u) ++ gap ++ rest).
    apply occ_more; try assumption. now constructor.
Qed.

(** A text without its trailing white space is some leading white space
    and then its words as they stand. *)
Lemma trimEnd_tokens (s : list ascii) :
  exists gap m,
    trimEnd s = gap ++ m /\
    Forall (fun x => is_space x = true) gap /\
    (tokens s = [] /\ m = [] /\ gap = [] \/ occurrence (tokens s) m) /\
    (forall c s', s = c :: s' -> is_space c = false -> gap = []) /\
    (forall c s', s = c :: s' -> is_space c = true -> tokens s <> [] -> gap <> []).
Proof.
  induction s as [|c s IH].
  { exists [], []. split; [reflexivity|]. split; [constructor|].
    split; [now left|]. split; [reflexivity|discriminate]. }
  destruct IH as (gap & m & Htrim & Hgap & Hocc & Hns & Hsp).
  destruct (is_space c) eqn:Ec.
  - rewrite (tokens_cons_space c s Ec).
    destruct Hocc as [(Ht & -> & ->)|Hocc].
    + exists [], []. split; [simpl in *; now rewrite Htrim, Ec|].
      split; [constructor|]. split; [now left|].
      split; [reflexivity|]. intros c' s' _ _ H. contradiction.
    + destruct (occurrence_head _ _ (tokens_words s) Hocc) as (x & m' & -> & _).
      exists (c :: gap), (x :: m').
      split.
      { destruct (trimEnd s) as [|y kept] eqn:E.
        - now destruct gap.
        - rewrite (trimEnd_cons_nonempty c y kept s E), Htrim. reflexivity. }
      split; [now constructor|]. split; [now right|].
      split; [intros ? ? [= <- <-]; congruence|discriminate].
  - rewrite (trimEnd_nonspace_head c s Ec), Htrim.
    assert (Hsp' : forall c' s'', c :: s = c' :: s'' -> is_space c' = true ->
                                  tokens (c :: s) <> [] -> @nil ascii <> [])
      by (intros ? ? [= <- <-]; congruence).
    destruct s as [|d s'].
    + simpl in Htrim. symmetry in Htrim. apply app_eq_nil in Htrim.
      destruct Htrim as [-> ->].
      exists [], [c]. split; [reflexivity|]. split; [constructor|].
      split; [|split; [reflexivity|exact Hsp']].
      right. simpl. rewrite Ec. apply occ_last, same_text_refl.
    + revert Hsp'. rewrite (tokens_cons_nonspace c d s' Ec). intros Hsp'.
      destruct (is_space d) eqn:Ed.
      * destruct Hocc as [(Ht & -> & ->)|Hocc].
        { exists [], [c]. split; [reflexivity|]. split; [constructor|].
          split; [|split; [reflexivity|exact Hsp']].
          right. rewrite Ht. apply occ_last, same_text_refl. }
        exists [], (c :: gap ++ m). split; [reflexivity|]. split; [constructor|].
        split; [|split; [reflexivity|exact Hsp']].
        right. change (c :: gap ++ m) with ([c] ++ gap ++ m).
        pose proof (occurrence_nonempty _ _ Hocc) as Hne.
        apply occ_more; try assumption; [apply same_text_refl|].
        now apply (Hsp d s' eq_refl Ed).
      * rewrite (Hns d s' eq_refl Ed). cbn [app].
        exists [], (c :: m). split; [reflexivity|]. split; [constructor|].
        split; [|split; [reflexivity|exact Hsp']].
        right. destruct Hocc as [(Ht & _)|Hocc];
          [now apply (tokens_nonspace_head d s' Ed) in Ht|].
        destruct (tokens (d :: s')) as [|w ws];
          [now apply occurrence_nonempty in Hocc|].
        now apply occurrence_cons.
Qed.

(** The trimmed text of an annotation is an occurrence of its words. *)
Lemma verbatim_occurrence (s : list ascii) :
  blank s = false -> occurrence (tokens s) (trim s).
Proof.
  intros Hb. rewrite <- tokens_trimStart. unfold blank, trim in *.
  destruct (trimStart s) as [|c s'] eqn:E; [discriminate Hb|].
  pose proof (trimStart_head _ _ _ E) as Hc.
  destruct (trimEnd_tokens (c :: s')) as (gap & m & Htrim & _ & Hocc & Hns & _).
  rewrite (Hns c s' eq_refl Hc) in Htrim. cbn [app] in Htrim. rewrite Htrim.
  destruct Hocc as [(Ht & _)|Hocc]; [|exact Hocc].
  now apply (tokens_nonspace_head c s' Hc) in Ht.
Qed.

Lemma slice_middle (pre m post : list ascii) :
  slice (length pre) (length pre + length m) (pre ++ m ++ post) = m.
Proof.
  unfold slice. replace (length pre + length m - length pre) with (length m) by lia.
  assert (Hskip : skipn (length pre) (pre ++ m ++ post) = m ++ post)
    by (induction pre as [|c pre IH]; simpl; auto).
  rewrite Hskip. clear Hskip.
  induction m as [|x m IHm]; simpl; [reflexivity|now f_equal].
Qed.

(** X21.  A highlight whose text is not blank is found wherever its
    trimmed text stands in the text as it is: that place lies in a match
    pushed for the highlight. *)
Theorem highlight_found_verbatim (h : Highlight.t) (index : nat)
    (pre post : list ascii) :
  blank (Highlight.text h) = false ->
  exists ranges,
    noteMatches (pre ++ trim (Highlight.text h) ++ post) index h
    = Some (map (noteMatch h index) ranges) /\
    exists r, In r ranges /\ fst r <= length pre < snd r.
Proof.
  intros Hb.
  destruct (noteMatches_occurrences h index (pre ++ trim (Highlight.text h) ++ post) Hb)
    as (ranges & E & _ & Hall).
  exists ranges. split; [exact E|].
  apply (Hall (length pre) (length (trim (Highlight.text h)))).
  - rewrite !length_app. lia.
  - rewrite slice_middle. now apply verbatim_occurrence.
Qed.

Lemma highlight_found_verbatim_witness :
  blank (Highlight.text (MoreSamples.mark "h0" "c1" " upon ")) = false /\
  exists ranges,
    noteMatches
      (list_ascii_of_string "once "
       ++ trim (Highlight.text (MoreSamples.mark "h0" "c1" " upon "))
       ++ list_ascii_of_string " a time")
      0 (MoreSamples.mark "h0" "c1" " upon ")
    = Some (map (noteMatch (MoreSamples.mark "h0" "c1" " upon ") 0) ranges) /\
    exists r, In r ranges /\ fst r <= 5 < snd r.
Proof.
  split; [reflexivity|].
  exact (highlight_found_verbatim (MoreSamples.mark "h0" "c1" " upon ") 0
           (list_ascii_of_string "once ") (list_ascii_of_string " a time") eq_refl).
Defined.

End HighlightFacts.

(** ** What HighlightText marks *)
Module RenderFacts.
Import Matcher MatcherSpec MatcherFacts ReaderSpec.

Local Open Scope nat_scope.

(** *** The search term *)

Lemma same_text_length (u w : list ascii) : same_text u w -> length u = length w.
Proof. induction 1; simpl; congruence. Qed.

Lemma firstn_app_length (u s : list ascii) : firstn (length u) (u ++ s) = u.
Proof. induction u as [|c u IH]; simpl; [reflexivity|now f_equal]. Qed.

(** The pattern of a search term matches the term itself, up to case. *)
Lemma matchHere_escape (q s : list ascii) (n : nat) :
  matchHere (escape q) s = Some n
  <-> n = length q /\ length q <= length s /\ same_text (firstn (length q) s) q.
Proof.
  replace (escape q) with (escape q ++ []) by apply app_nil_r. split.
  - intros H. apply matchHere_escape_inv in H.
    destruct H as (u & s' & k & -> & Hu & [= <-] & ->).
    pose proof (same_text_length _ _ Hu) as Hlen.
    rewrite <- Hlen, firstn_app_length, length_app.
    repeat split; [lia|lia|exact Hu].
  - intros (-> & Hlen & Hu).
    rewrite <- (firstn_skipn (length q) s) at 1.
    rewrite (matchHere_escape_app _ _ _ _ Hu). simpl.
    rewrite (same_text_length _ _ Hu). f_equal. lia.
Qed.

Lemma searchMatches_sound (searchQuery text : list ascii) :
  blank searchQuery = false ->
  exists ranges,
    searchMatches searchQuery text = Some (map searchMatch ranges) /\
    (forall r, In r ranges ->
               snd r = fst r + length searchQuery /\
               snd r <= length text /\
               same_text (slice (fst r) (snd r) text) searchQuery) /\
    (forall i, i + length searchQuery <= length text ->
               same_text (slice i (i + length searchQuery) text) searchQuery ->
               exists r, In r ranges /\ fst r <= i < snd r).
Proof.
  intros Hb. unfold searchMatches. rewrite Hb.
  assert (Hre : consuming (escape searchQuery)).
  { destruct searchQuery; [discriminate Hb|exact I]. }
  assert (Hpos : 0 < length searchQuery).
  { destruct searchQuery; [discriminate Hb|simpl; lia]. }
  destruct (execAll_total (escape searchQuery) text 0 0 Hre) as [ranges E].
  exists ranges. rewrite E. split; [reflexivity|]. split.
  - intros r Hr. pose proof (execAll_found _ _ _ _ _ E r Hr) as Hm.
    rewrite Nat.sub_0_r in Hm. apply matchHere_escape in Hm.
    destruct Hm as (Hn & Hlen & Hsame).
    pose proof (chained_In _ _ _ _ (execAll_chained _ _ _ _ _ E) Hr) as Hch.
    split; [lia|]. split; [lia|].
    unfold slice. now rewrite Hn.
  - intros i Hi Hsame.
    apply (execAll_leftmost _ _ _ _ _ E i (length searchQuery)); [lia|lia|].
    rewrite Nat.sub_0_r. apply matchHere_escape.
    split; [reflexivity|]. split; [rewrite length_skipn; lia|].
    unfold slice in Hsame.
    now replace (i + length searchQuery - i) with (length searchQuery) in Hsame by lia.
Qed.

(** X22.  A search term that is not blank is searched as it is typed,
    white space at its ends included: every match pushed is a piece of the
    text as long as the term and equal to it up to the case of the letters,
    and every such piece of the text lies in a match pushed.  A blank term
    pushes no match. *)
Theorem search_matching (searchQuery text : list ascii) :
  if blank searchQuery then searchMatches searchQuery text = Some []
  else
    exists ranges,
      searchMatches searchQuery text = Some (map searchMatch ranges) /\
      (forall r, In r ranges ->
                 snd r = fst r + length searchQuery /\
                 snd r <= length text /\
                 same_text (slice (fst r) (snd r) text) searchQuery) /\
      (forall i, i + length searchQuery <= length text ->
                 same_text (slice i (i + length searchQuery) text) searchQuery ->
                 exists r, In r ranges /\ fst r <= i < snd r).
Proof.
  destruct (blank searchQuery) eqn:Hb.
  - unfold searchMatches. now rewrite Hb.
  - now apply searchMatches_sound.
Qed.

Lemma search_matching_witness :
  blank Samples.Texts.termB = false /\
  exists ranges,
    searchMatches Samples.Texts.termB Samples.Texts.abcb
    = Some (map searchMatch ranges) /\
    (forall r, In r ranges ->
               snd r = fst r + 1 /\
               snd r <= 7 /\
               same_text (slice (fst r) (snd r) Samples.Texts.abcb) Samples.Texts.termB) /\
    (forall i, i + 1 <= 7 ->
               same_text (slice i (i + 1) Samples.Texts.abcb) Samples.Texts.termB ->
               exists r, In r ranges /\ fst r <= i < snd r).
Proof.
  split; [reflexivity|].
  exact (search_matching Samples.Texts.termB Samples.Texts.abcb).
Defined.

(** *** Every mark is a match *)

Lemma sweep_In (text : list ascii) (matches : list Match) (lastIndex : nat)
    (e : element) :
  In e (fst (sweep text matches lastIndex)) ->
  (exists s, e = Plain s) \/ exists m, In m matches /\ e = render text m.
Proof.
  revert lastIndex. induction matches as [|m rest IH]; intros lastIndex.
  - intros [].
  - rewrite sweep_cons. destruct (start m <? lastIndex).
    + intros H. destruct (IH _ H) as [Hp|(m' & Hin & ->)]; [now left|].
      right. exists m'. split; [now right|reflexivity].
    + cbn [fst]. intros H. apply in_app_or in H. destruct H as [H|[<-|H]].
      * left. destruct (lastIndex <? start m); [|destruct H].
        destruct H as [<-|[]]. eauto.
      * right. exists m. split; [now left|reflexivity].
      * destruct (IH _ H) as [Hp|(m' & Hin & ->)]; [now left|].
        right. exists m'. split; [now right|reflexivity].
Qed.

Lemma forEachHighlight_sound (text : list ascii) (chapterHighlights : list Highlight.t)
    (index : nat) (notes : list Match) (m : Match) :
  forEachHighlight text index chapterHighlights = Some notes ->
  In m notes ->
  exists h i r,
    nth_error chapterHighlights i = Some h /\
    m = noteMatch h (index + i) r /\
    blank (Highlight.text h) = false /\
    occurrence (tokens (Highlight.text h)) (slice (fst r) (snd r) text).
Proof.
  revert index notes.
  induction chapterHighlights as [|h rest IH]; intros index notes; simpl.
  - intros [= <-] [].
  - destruct (noteMatches text index h) as [found|] eqn:Ef; [|discriminate].
    destruct (forEachHighlight text (S index) rest) as [later|] eqn:El; [|discriminate].
    intros [= <-] Hin. apply in_app_or in Hin. destruct Hin as [Hin|Hin].
    + destruct (blank (Highlight.text h)) eqn:Hb.
      { unfold noteMatches in Ef. rewrite Hb in Ef. injection Ef as <-. destruct Hin. }
      destruct (noteMatches_occurrences h index text Hb) as (ranges & E & Hocc & _).
      rewrite E in Ef. injection Ef as <-.
      apply in_map_iff in Hin. destruct Hin as (r & <- & Hr).
      exists h, 0, r. rewrite Nat.add_0_r.
      split; [reflexivity|]. split; [reflexivity|]. split; [exact Hb|now apply Hocc].
    + destruct (IH _ _ El Hin) as (h' & i & r & Hnth & -> & Hb & Hocc).
      exists h', (S i), r.
      split; [exact Hnth|]. split; [f_equal; lia|]. split; assumption.
Qed.

(** X23.  [HighlightText] marks nothing that is not a match: the text in
    a search mark is the search term up to case, and the term is not blank;
    the text in an annotation span is an occurrence of the words of its
    highlight, whose text is not blank, and the number shown after it is the
    1-based position of that highlight among the highlights of the
    chapter. *)
Theorem marks_are_matches (searchQuery : list ascii)
    (chapterHighlights : list Highlight.t) (text : list ascii)
    (elements : list element) (e : element) :
  HighlightText searchQuery chapterHighlights text = Some elements ->
  In e elements ->
  match e with
  | Plain _ => True
  | SearchMark _ s => blank searchQuery = false /\ same_text s searchQuery
  | NoteSpan h index _ s =>
      0 < index /\
      nth_error chapterHighlights (index - 1) = Some h /\
      blank (Highlight.text h) = false /\
      occurrence (tokens (Highlight.text h)) s
  end.
Proof.
  unfold HighlightText.
  destruct (blank searchQuery && (length chapterHighlights =? 0)).
  { intros [= <-] [<-|[]]. exact I. }
  destruct (searchMatches searchQuery text) as [found|] eqn:Es; [|discriminate].
  destruct (forEachHighlight text 0 chapterHighlights) as [notes|] eqn:En;
    [|discriminate].
  destruct (sweep text (sort (found ++ notes)) 0) as [swept lastIndex] eqn:Esweep.
  intros [= <-] Hin. apply in_app_or in Hin. destruct Hin as [Hin|Hin].
  2:{ destruct (lastIndex <? length text); [|destruct Hin].
      destruct Hin as [<-|[]]. exact I. }
  change swept with (fst (swept, lastIndex)) in Hin. rewrite <- Esweep in Hin.
  apply sweep_In in Hin. destruct Hin as [(s & ->)|(m & Hm & ->)]; [exact I|].
  apply In_sort, in_app_or in Hm. destruct Hm as [Hm|Hm].
  - destruct (blank searchQuery) eqn:Hb.
    { unfold searchMatches in Es. rewrite Hb in Es. injection Es as <-. destruct Hm. }
    destruct (searchMatches_sound searchQuery text Hb) as (ranges & E & Hall & _).
    rewrite E in Es. injection Es as <-.
    apply in_map_iff in Hm. destruct Hm as (r & <- & Hr).
    cbn. split; [reflexivity|]. now apply Hall.
  - destruct (forEachHighlight_sound _ _ _ _ _ En Hm) as (h & i & r & Hnth & -> & Hb & Hocc).
    cbn. replace (i + 1 - 1) with i by lia.
    split; [lia|]. split; [exact Hnth|]. split; assumption.
Qed.

Lemma marks_are_matches_witness :
  HighlightText Samples.Texts.termB [Samples.Texts.noteABC] Samples.Texts.abcb
  = Some [NoteSpan Samples.Texts.noteABC 1 0 (list_ascii_of_string "a b c");
          Plain (list_ascii_of_string " ");
          SearchMark 6 (list_ascii_of_string "b")] /\
  same_text (list_ascii_of_string "b") Samples.Texts.termB /\
  occurrence (tokens (Highlight.text Samples.Texts.noteABC))
    (list_ascii_of_string "a b c").
Proof.
  split; [reflexivity|]. split.
  - exact (proj2 (marks_are_matches Samples.Texts.termB [Samples.Texts.noteABC]
                    Samples.Texts.abcb _ (SearchMark 6 (list_ascii_of_string "b"))
                    eq_refl (or_intror (or_intror (or_introl eq_refl))))).
  - exact (proj2 (proj2 (proj2
             (marks_are_matches Samples.Texts.termB [Samples.Texts.noteABC]
                Samples.Texts.abcb _
                (NoteSpan Samples.Texts.noteABC 1 0 (list_ascii_of_string "a b c"))
                eq_refl (or_introl eq_refl))))).
Defined.

(** *** One source: every match is marked *)

Lemma sort_chained (make : nat * nat -> Match) (lo hi : nat)
    (ranges : list (nat * nat)) :
  (forall r, start (make r) = fst r) ->
  chained lo hi ranges -> sort (map make ranges) = map make ranges.
Proof.
  intros Hmake. revert lo.
  induction ranges as [|r later IH]; intros lo; [reflexivity|].
  intros (_ & Hr & _ & Hch). cbn [map sort]. rewrite (IH _ Hch).
  destruct later as [|r' later]; [reflexivity|].
  cbn [map insert]. rewrite !Hmake.
  destruct Hch as (Hr' & _). simpl in Hr'.
  destruct (Nat.leb_spec (fst r) (fst r')); [reflexivity|lia].
Qed.

Lemma tagged_render (text : list ascii) (m : Match) :
  tagged [render text m] = [render text m].
Proof. unfold render. now destruct (type m). Qed.

Lemma sweep_chained (text : list ascii) (make : nat * nat -> Match) (lo hi : nat)
    (ranges : list (nat * nat)) (lastIndex : nat) :
  (forall r, start (make r) = fst r /\ end_ (make r) = snd r) ->
  chained lo hi ranges -> lastIndex <= lo ->
  tagged (fst (sweep text (map make ranges) lastIndex))
  = map (fun r => render text (make r)) ranges.
Proof.
  intros Hmake. revert lo lastIndex.
  induction ranges as [|r later IH]; intros lo lastIndex; [reflexivity|].
  intros (Hlo & Hr & _ & Hch) Hli. cbn [map]. rewrite sweep_cons.
  destruct (Hmake r) as [Hs He]. rewrite Hs, He.
  destruct (Nat.ltb_spec (fst r) lastIndex); [lia|]. cbn [fst].
  unfold tagged. rewrite List.filter_app.
  replace (List.filter _ (if lastIndex <? fst r
                          then [Plain (slice lastIndex (fst r) text)] else []))
    with (@nil element) by (now destruct (lastIndex <? fst r)).
  cbn [app]. change (render text (make r) :: ?l) with ([render text (make r)] ++ l).
  rewrite List.filter_app. fold (tagged [render text (make r)]).
  rewrite tagged_render. cbn [app]. f_equal.
  apply (IH (snd r)); [exact Hch|lia].
Qed.

(** X24.  With the search term alone, and with one highlight alone, no
    match is lost: the marks [HighlightText] returns are the matches pushed,
    each one marked, in the order they were found. *)
Theorem single_source_all_marked (text : list ascii) :
  (forall searchQuery : list ascii,
      exists ranges elements,
        searchMatches searchQuery text = Some (map searchMatch ranges) /\
        HighlightText searchQuery [] text = Some elements /\
        tagged elements
        = map (fun r => SearchMark (fst r) (slice (fst r) (snd r) text)) ranges) /\
  (forall (searchQuery : list ascii) (h : Highlight.t),
      blank searchQuery = true ->
      exists ranges elements,
        noteMatches text 0 h = Some (map (noteMatch h 0) ranges) /\
        HighlightText searchQuery [h] text = Some elements /\
        tagged elements
        = map (fun r => NoteSpan h 1 (fst r) (slice (fst r) (snd r) text)) ranges).
Proof.
  assert (Htail : forall swept lastIndex,
             tagged (swept ++ (if lastIndex <? length text
                               then [Plain (skipn lastIndex text)] else []))
             = tagged swept).
  { intros swept lastIndex. unfold tagged. rewrite List.filter_app.
    destruct (lastIndex <? length text); simpl; now rewrite app_nil_r. }
  split.
  - intros searchQuery.
    destruct (searchMatches_ranges searchQuery text) as (ranges & E & Hch).
    exists ranges. unfold HighlightText. rewrite E. cbn [forEachHighlight length].
    destruct (blank searchQuery) eqn:Hb.
    + unfold searchMatches in E. rewrite Hb in E. injection E as E.
      destruct ranges; [|discriminate]. exists [Plain text]. now repeat split.
    + cbn [andb]. rewrite app_nil_r.
      rewrite (sort_chained searchMatch 0 (length text)); [|reflexivity|exact Hch].
      destruct (sweep text (map searchMatch ranges) 0) as [swept lastIndex] eqn:Es.
      eexists. split; [reflexivity|]. split; [reflexivity|].
      rewrite Htail. change swept with (fst (swept, lastIndex)). rewrite <- Es.
      apply (sweep_chained text searchMatch 0 (length text));
        [now split|exact Hch|lia].
  - intros searchQuery h Hb.
    destruct (noteMatches_ranges text 0 h) as (ranges & E & Hch).
    exists ranges. unfold HighlightText, searchMatches. rewrite Hb.
    cbn [length Nat.eqb andb forEachHighlight]. rewrite E. cbn [app].
    rewrite app_nil_r.
    rewrite (sort_chained (noteMatch h 0) 0 (length text)); [|reflexivity|exact Hch].
    destruct (sweep text (map (noteMatch h 0) ranges) 0) as [swept lastIndex] eqn:Es.
    eexists. split; [reflexivity|]. split; [reflexivity|].
    rewrite Htail. change swept with (fst (swept, lastIndex)). rewrite <- Es.
    apply (sweep_chained text (noteMatch h 0) 0 (length text));
      [now split|exact Hch|lia].
Qed.

Lemma single_source_all_marked_witness :
  blank [] = true /\
  exists ranges elements,
    noteMatches Samples.Texts.abcb 0 Samples.Texts.noteB
    = Some (map (noteMatch Samples.Texts.noteB 0) ranges) /\
    HighlightText [] [Samples.Texts.noteB] Samples.Texts.abcb = Some elements /\
    tagged elements
    = map (fun r => NoteSpan Samples.Texts.noteB 1 (fst r)
                      (slice (fst r) (snd r) Samples.Texts.abcb)) ranges.
Proof.
  split; [reflexivity|].
  exact (proj2 (single_source_all_marked Samples.Texts.abcb) [] Samples.Texts.noteB
           eq_refl).
Defined.

End RenderFacts.
